(** * Generated entity headers and the generator contract

    The repository ships two generated C++ headers, [Person.h] and
    [Employee.h].  This development embeds them line by line, gives the
    few C++ rules the properties rest on (conditional inclusion, the
    inheritance of destructor virtuality) an executable reading, and
    analyses the emitted declarations.  The generator that produced the
    headers (schema model, hierarchy resolver, member synthesizer,
    emission engine, driver) is not part of the sources; its components
    are modelled from the specification in the second half of the file. *)

From Stdlib Require Import List String Ascii Bool Arith PeanoNat Lia.
From Stdlib Require Import Relations.Relation_Operators Relations.Operators_Properties.
Import ListNotations.

Open Scope string_scope.
Open Scope list_scope.

(** ** Small text utilities *)

Module Text.

Definition dquote : ascii := "034"%char.
Definition space : ascii := " "%char.

(** [quoted s] is [s] between two double quotes. *)
Definition quoted (s : string) : string :=
  String dquote (s ++ String dquote EmptyString)%string.

Definition is_empty (s : string) : bool :=
  match s with EmptyString => true | String _ _ => false end.

(** Fields of [s] separated by the character [sep]. *)
Fixpoint split_on (sep : ascii) (s : string) : list string :=
  match s with
  | EmptyString => [EmptyString]
  | String c rest =>
      if Ascii.eqb c sep then EmptyString :: split_on sep rest
      else match split_on sep rest with
           | [] => [String c EmptyString]
           | w :: ws => String c w :: ws
           end
  end.

Definition words (s : string) : list string :=
  filter (fun w => negb (is_empty w)) (split_on space s).

Definition unwords (ws : list string) : string := String.concat " " ws.

Definition upper_ascii (c : ascii) : ascii :=
  let n := nat_of_ascii c in
  if ((97 <=? n) && (n <=? 122))%nat then ascii_of_nat (n - 32) else c.

Fixpoint to_upper (s : string) : string :=
  match s with
  | EmptyString => EmptyString
  | String c rest => String (upper_ascii c) (to_upper rest)
  end.

Fixpoint last_char (s : string) : option ascii :=
  match s with
  | EmptyString => None
  | String c EmptyString => Some c
  | String _ rest => last_char rest
  end.

Fixpoint drop_last (s : string) : string :=
  match s with
  | EmptyString => EmptyString
  | String _ EmptyString => EmptyString
  | String c rest => String c (drop_last rest)
  end.

Definition ends_with (c : ascii) (s : string) : bool :=
  match last_char s with
  | Some d => Ascii.eqb c d
  | None => false
  end.

(** The part of [s] before the first [c], and the part after it. *)
Fixpoint break_at (c : ascii) (s : string) : string * option string :=
  match s with
  | EmptyString => (EmptyString, None)
  | String d rest =>
      if Ascii.eqb c d then (EmptyString, Some rest)
      else let '(l, r) := break_at c rest in (String d l, r)
  end.

Definition mem (x : string) (l : list string) : bool :=
  existsb (String.eqb x) l.

End Text.

(** ** The generated headers, line by line

    Each list element is one line of the file, without its newline.
    [Person.h] ends without a final newline; [Employee.h] ends with one
    blank line after the closing directive. *)

Module Units.
Import Text.

Definition Person_h : list string :=
  [ "// Auto-generated C++ header file";
    EmptyString;
    "#ifndef PERSON_H";
    "#define PERSON_H";
    EmptyString;
    "// Standard library includes";
    "#include <iostream>";
    "#include <memory>";
    "#include <string>";
    "#include <vector>";
    "#include <map>";
    EmptyString;
    "// Project includes";
    EmptyString;
    "// Custom includes based on features";
    EmptyString;
    "namespace com.example {";
    EmptyString;
    "/**";
    " * @class Person";
    " * @brief A person entity";
    " */";
    EmptyString;
    "class Person {";
    "private:";
    "    std::string name;";
    "    int age;";
    "    ";
    "    ";
    "    ";
    "public:";
    "    // Constructors and Destructor";
    "    Person();";
    "    Person();";
    "    explicit Person(std::string& name, int age";
    "    );";
    "    virtual ~Person();";
    "    ";
    "    ";
    "    ";
    "    // Public methods";
    "    std::string getName() const;";
    "    void setName(std::string& value";
    "    );";
    "    int getAge() const noexcept;";
    "    virtual void display() const;";
    "    ";
    "    // Getters and Setters";
    "    std::string getEmail() const { return email; }";
    "    void setEmail(const std::string& value) { email = value; }";
    "    ";
    "    ";
    "    ";
    "    ";
    "    ";
    "};";
    EmptyString;
    "} // namespace com.example";
    EmptyString;
    "// Inline implementations";
    EmptyString;
    "#endif // PERSON_H" ].

Definition Employee_h : list string :=
  [ "// Auto-generated C++ header file";
    EmptyString;
    "#ifndef EMPLOYEE_H";
    "#define EMPLOYEE_H";
    EmptyString;
    "// Standard library includes";
    "#include <iostream>";
    "#include <memory>";
    "#include <string>";
    "#include <vector>";
    "#include <map>";
    EmptyString;
    "// Project includes";
    ("#include " ++ quoted "Person.h")%string;
    EmptyString;
    "// Custom includes based on features";
    EmptyString;
    "namespace com.example {";
    EmptyString;
    "/**";
    " * @class Employee";
    " * @brief An employee entity";
    " */";
    EmptyString;
    "class Employee : public Person {";
    "private:";
    "    std::string employeeId;";
    "    double salary = 0.0;";
    "    ";
    "    ";
    "    ";
    "public:";
    "    // Constructors and Destructor";
    "    Employee();";
    "    ~Employee();";
    "    ";
    "    ";
    "    ";
    "    // Public methods";
    "    std::string getEmployeeId() const;";
    "    void setSalary(double value";
    "    );";
    "    void display() const;";
    "    ";
    "    // Getters and Setters";
    "    ";
    "    ";
    "    ";
    "    ";
    "    ";
    "};";
    EmptyString;
    "} // namespace com.example";
    EmptyString;
    "// Inline implementations";
    EmptyString;
    "#endif // EMPLOYEE_H";
    EmptyString ].

(** The units the generator emitted, base class first. *)
Definition generated_units : list (list string) := [Person_h; Employee_h].

End Units.

(** ** Preprocessor directives and conditional inclusion *)

Module Preprocessor.
Import Text.

Inductive IncludeForm := AngleInclude | QuoteInclude.

Inductive Directive :=
| Ifndef (macro : string)
| Define (macro : string)
| Endif
| Include (form : IncludeForm) (target : string).

(** [<iostream>] gives [iostream], a quoted name gives the name. *)
Definition include_target (w : string) : option (IncludeForm * string) :=
  match w with
  | String c rest =>
      if Ascii.eqb c "<"%char then
        if ends_with ">"%char rest then Some (AngleInclude, drop_last rest) else None
      else if Ascii.eqb c dquote then
        if ends_with dquote rest then Some (QuoteInclude, drop_last rest) else None
      else None
  | EmptyString => None
  end.

(** The directive a line carries.  The four directives the generated
    units use are recognised; a line with any other directive is taken
    as text. *)
Definition directive_of (line : string) : option Directive :=
  match words line with
  | "#ifndef" :: g :: _ => Some (Ifndef g)
  | "#define" :: g :: _ => Some (Define g)
  | "#endif" :: _ => Some Endif
  | "#include" :: t :: _ =>
      match include_target t with
      | Some (f, n) => Some (Include f n)
      | None => None
      end
  | _ => None
  end.

(** The directives of a unit, in order. *)
Fixpoint directives (lines : list string) : list Directive :=
  match lines with
  | [] => []
  | l :: rest =>
      match directive_of l with
      | Some d => d :: directives rest
      | None => directives rest
      end
  end.

(** A line carries text when it is neither blank nor a line comment. *)
Definition is_code (line : string) : bool :=
  match words line with
  | [] => false
  | w :: _ => negb (String.prefix "//" w)
  end.

Definition code_lines (lines : list string) : list string :=
  filter is_code lines.

(** State of the preprocessor while it reads a translation unit: the
    macros defined so far, the stack of open conditionals (each with
    whether its group is taken) and the lines passed on to the
    compiler, most recent first.  An [#include] line is passed on as it
    stands: the header it names is not read. *)
Record PState := mkPState {
  defined : list string;
  conds : list bool;
  emitted : list string
}.

Definition active (st : PState) : bool := forallb (fun b => b) (conds st).

Definition pp_line (st : PState) (line : string) : PState :=
  match directive_of line with
  | Some (Ifndef g) =>
      mkPState (defined st) (negb (mem g (defined st)) :: conds st) (emitted st)
  | Some Endif =>
      mkPState (defined st) (tl (conds st)) (emitted st)
  | Some (Define g) =>
      if active st then mkPState (g :: defined st) (conds st) (emitted st)
      else st
  | Some (Include _ _) | None =>
      if active st then mkPState (defined st) (conds st) (line :: emitted st)
      else st
  end.

Definition pp_lines (st : PState) (lines : list string) : PState :=
  fold_left pp_line lines st.

(** What the compiler sees of [lines] when the macros [defs] are
    already defined. *)
Definition preprocess (defs : list string) (lines : list string) : list string :=
  rev (emitted (pp_lines (mkPState defs [] []) lines)).

End Preprocessor.

(** ** Declarations read off a generated unit *)

Module Decls.
Import Text Preprocessor.

Record Field := mkField {
  f_type : string;
  f_name : string;
  f_default : option string
}.

Record Param := mkParam {
  p_type : string;
  p_name : string
}.

Record Ctor := mkCtor {
  c_explicit : bool;
  c_params : list Param
}.

Record Dtor := mkDtor {
  d_virtual : bool
}.

Inductive Special :=
| SCtor (c : Ctor)
| SDtor (d : Dtor).

Record ClassDecl := mkClass {
  cname : string;
  cbase : option string;
  cfields : list Field;
  cctors : list Ctor;
  cdtors : list Dtor
}.

(** A line with its indentation and repeated blanks removed. *)
Definition squeeze (line : string) : string := unwords (words line).

Definition is_line (text : string) (line : string) : bool :=
  String.eqb (squeeze line) text.

Fixpoint drop_until (p : string -> bool) (lines : list string) : list string :=
  match lines with
  | [] => []
  | l :: rest => if p l then rest else drop_until p rest
  end.

Fixpoint take_until (p : string -> bool) (lines : list string) : list string :=
  match lines with
  | [] => []
  | l :: rest => if p l then [] else l :: take_until p rest
  end.

(** The lines after the first [start] line, up to the next [stop] line. *)
Definition between (start stop : string -> bool) (lines : list string) : list string :=
  take_until stop (drop_until start lines).

(** Name and base of the class a unit declares. *)
Fixpoint class_header (lines : list string) : option (string * option string) :=
  match lines with
  | [] => None
  | l :: rest =>
      match words l with
      | "class" :: n :: ":" :: "public" :: b :: _ => Some (n, Some b)
      | "class" :: n :: _ => Some (n, None)
      | _ => class_header rest
      end
  end.

Definition strip_semicolon (s : string) : string :=
  if ends_with ";"%char s then drop_last s else s.

(** [std::string name;] or [double salary = 0.0;]. *)
Definition parse_field (line : string) : option Field :=
  let '(decl, init) := break_at "="%char (strip_semicolon (squeeze line)) in
  match rev (words decl) with
  | n :: t :: ts => Some (mkField (unwords (rev (t :: ts))) n (option_map squeeze init))
  | _ => None
  end.

Fixpoint filter_map {A B} (f : A -> option B) (l : list A) : list B :=
  match l with
  | [] => []
  | x :: rest =>
      match f x with
      | Some y => y :: filter_map f rest
      | None => filter_map f rest
      end
  end.

Definition private_section (lines : list string) : list string :=
  between (is_line "private:") (is_line "public:") lines.

Definition special_section (lines : list string) : list string :=
  between (is_line "// Constructors and Destructor") (is_line "// Public methods") lines.

(** Declarations of a section: blank lines dropped, a line that does
    not end in a semicolon joined with the lines that follow it. *)
Fixpoint join_decls (pending : string) (lines : list string) : list string :=
  match lines with
  | [] => if is_empty pending then [] else [pending]
  | l :: rest =>
      let t := squeeze l in
      if is_empty t then join_decls pending rest
      else
        let cur := if is_empty pending then t else (pending ++ " " ++ t)%string in
        if ends_with ";"%char cur then cur :: join_decls EmptyString rest
        else join_decls cur rest
  end.

Definition parse_param (s : string) : option Param :=
  match rev (words s) with
  | n :: t :: ts => Some (mkParam (unwords (rev (t :: ts))) n)
  | _ => None
  end.

Definition parse_params (s : string) : list Param :=
  filter_map parse_param (split_on ","%char s).

Fixpoint split_modifiers (ws : list string) : list string * list string :=
  match ws with
  | w :: rest =>
      if mem w ["explicit"; "virtual"] then
        let '(ms, r) := split_modifiers rest in (w :: ms, r)
      else ([], ws)
  | [] => ([], [])
  end.

(** A constructor or destructor declaration of class [cls]. *)
Definition parse_special (cls : string) (decl : string) : option Special :=
  let '(mods, rest) := split_modifiers (words decl) in
  match break_at "("%char (unwords rest) with
  | (head, Some tail) =>
      if String.eqb head cls then
        Some (SCtor (mkCtor (mem "explicit" mods)
                            (parse_params (fst (break_at ")"%char tail)))))
      else if String.eqb head ("~" ++ cls)%string then
        Some (SDtor (mkDtor (mem "virtual" mods)))
      else None
  | (_, None) => None
  end.

Definition ctor_of (s : Special) : option Ctor :=
  match s with SCtor c => Some c | SDtor _ => None end.

Definition dtor_of (s : Special) : option Dtor :=
  match s with SDtor d => Some d | SCtor _ => None end.

Definition parse_class (lines : list string) : option ClassDecl :=
  match class_header lines with
  | Some (n, b) =>
      let specials :=
        filter_map (parse_special n) (join_decls EmptyString (special_section lines)) in
      Some (mkClass n b
              (filter_map parse_field (private_section lines))
              (filter_map ctor_of specials)
              (filter_map dtor_of specials))
  | None => None
  end.

(** Constructors by arity. *)
Definition is_default (c : Ctor) : bool :=
  match c_params c with [] => true | _ :: _ => false end.

Definition default_ctors (c : ClassDecl) : list Ctor := filter is_default (cctors c).

Definition param_ctors (c : ClassDecl) : list Ctor :=
  filter (fun k => negb (is_default k)) (cctors c).

(** Attributes declared without an initializer. *)
Definition is_required (f : Field) : bool :=
  match f_default f with None => true | Some _ => false end.

Definition required_fields (c : ClassDecl) : list Field := filter is_required (cfields c).

(** A parameter type with a trailing reference mark removed. *)
Definition value_type (t : string) : string :=
  if ends_with "&"%char t then drop_last t else t.

(** Include targets of a unit by group; the groups are introduced by
    the three comment lines of the template. *)
Definition include_name (d : Directive) : option string :=
  match d with Include _ n => Some n | _ => None end.

Definition include_names (lines : list string) : list string :=
  filter_map include_name (directives lines).

Definition std_marker := is_line "// Standard library includes".
Definition project_marker := is_line "// Project includes".
Definition custom_marker := is_line "// Custom includes based on features".
Definition is_namespace (line : string) : bool :=
  match words line with "namespace" :: _ => true | _ => false end.

Definition std_includes (lines : list string) : list string :=
  include_names (between std_marker project_marker lines).

Definition project_includes (lines : list string) : list string :=
  include_names (between project_marker custom_marker lines).

Definition custom_includes (lines : list string) : list string :=
  include_names (between custom_marker is_namespace lines).

(** Alphabetical order. *)
Fixpoint sortedb (l : list string) : bool :=
  match l with
  | [] => true
  | x :: rest =>
      match rest with
      | [] => true
      | y :: _ => String.leb x y && sortedb rest
      end
  end.

(** The C++ rule for destructors: the destructor of a class is virtual
    when it is declared [virtual] or when the class has a base whose
    destructor is virtual.  A base is a complete class, so it is looked
    up among the classes defined before the one that names it;
    [earlier] lists the classes most recent first. *)
Definition declared_virtual (c : ClassDecl) : bool :=
  existsb d_virtual (cdtors c).

Fixpoint virtual_in (earlier : list ClassDecl) (n : string) : bool :=
  match earlier with
  | [] => false
  | c :: before =>
      if String.eqb (cname c) n then
        declared_virtual c
        || match cbase c with
           | Some b => virtual_in before b
           | None => false
           end
      else virtual_in before n
  end.

Definition has_virtual_dtor (tu : list ClassDecl) (n : string) : bool :=
  virtual_in (rev tu) n.

(** Base, base of the base, and so on. *)
Fixpoint ancestors_in (earlier : list ClassDecl) (n : string) : list string :=
  match earlier with
  | [] => []
  | c :: before =>
      if String.eqb (cname c) n then
        match cbase c with
        | Some b => b :: ancestors_in before b
        | None => []
        end
      else ancestors_in before n
  end.

Definition ancestors (tu : list ClassDecl) (n : string) : list string :=
  ancestors_in (rev tu) n.

Definition has_children (tu : list ClassDecl) (n : string) : bool :=
  existsb (fun c => match cbase c with
                    | Some b => String.eqb b n
                    | None => false
                    end) tu.

(** The classes of the generated units, in the order of [generated_units]. *)
Definition header_classes : list ClassDecl :=
  filter_map parse_class Units.generated_units.

End Decls.

(** ** Properties of a generated unit *)

Module HeaderProps.
Import Text Units Preprocessor Decls.

(** The macro a unit is guarded by: the upper-cased entity name followed by [_H]. *)
Definition guard_macro (lines : list string) : option string :=
  match class_header lines with
  | Some (n, _) => Some (to_upper n ++ "_H")%string
  | None => None
  end.

(** The lines of a unit that reach the compiler when nothing is
    skipped: everything but the conditional directives and the macro
    definitions. *)
Definition passes (line : string) : bool :=
  match directive_of line with
  | Some (Include _ _) | None => true
  | Some (Ifndef _) | Some (Define _) | Some Endif => false
  end.

Definition unit_code (lines : list string) : list string :=
  code_lines (filter passes lines).

Definition is_plain (line : string) : bool :=
  match directive_of line with
  | None => true
  | Some _ => false
  end.

Definition is_flat (line : string) : bool :=
  match directive_of line with
  | Some (Ifndef _) | Some Endif => false
  | Some (Define _) | Some (Include _ _) | None => true
  end.

(** [guarded g pre body post lines]: [lines] is [body] between
    [#ifndef g], [#define g] and [#endif], with only blank lines and
    line comments before and after. *)
Record guarded (g : string) (pre body post lines : list string) : Prop := {
  g_shape : exists l1 l2 l3,
      lines = pre ++ l1 :: l2 :: body ++ l3 :: post
      /\ directive_of l1 = Some (Ifndef g)
      /\ directive_of l2 = Some (Define g)
      /\ directive_of l3 = Some Endif;
  g_pre : forallb (fun l => is_plain l && negb (is_code l)) pre = true;
  g_post : forallb (fun l => is_plain l && negb (is_code l)) post = true;
  g_body : forallb is_flat body = true
}.

Definition is_blank (line : string) : bool :=
  match words line with [] => true | _ :: _ => false end.

(** The last line of a unit that is not blank. *)
Definition last_text (lines : list string) : string :=
  last (filter (fun l => negb (is_blank l)) lines) EmptyString.

Definition include_directive (p : IncludeForm * string) : Directive :=
  Include (fst p) (snd p).

(** What the specification asks of the constructors of an entity
    with required attributes: one parameterized constructor, taking
    them in declaration order, explicit exactly when it has one
    parameter. *)
Definition ctor_contract (c : ClassDecl) : Prop :=
  required_fields c <> [] ->
  exists k,
    param_ctors c = [k]
    /\ map p_name (c_params k) = map f_name (required_fields c)
    /\ (c_explicit k = true <-> List.length (c_params k) = 1).

(** What the specification asks of the include list of a unit. *)
Definition includes_contract (lines : list string) : Prop :=
  NoDup (include_names lines)
  /\ sortedb (std_includes lines) = true
  /\ sortedb (project_includes lines) = true
  /\ sortedb (custom_includes lines) = true
  /\ include_names lines
     = std_includes lines ++ project_includes lines ++ custom_includes lines.

(** A translation unit is well formed when no class is defined twice
    and every base is defined before the class that derives from it. *)
Fixpoint well_formed_in (earlier : list ClassDecl) : bool :=
  match earlier with
  | [] => true
  | c :: before =>
      negb (mem (cname c) (map cname before))
      && match cbase c with
         | Some b => mem b (map cname before)
         | None => true
         end
      && well_formed_in before
  end.

Definition well_formed (tu : list ClassDecl) : bool := well_formed_in (rev tu).

End HeaderProps.

(** ** The generator, modelled from the specification

    None of the generator's components is among the sources: only two
    of its output units are.  The definitions of this module follow the
    component design of the specification, one definition per operation
    it names. *)

Module Generator.
Import Text.

(** *** Schema model *)

(** Modelled from the spec: the semantic type of an attribute
    (primitive, string, reference-to-entity, collection-of); the
    schema classes of the generator are missing. *)
Inductive SemType :=
| TPrimitive (name : string)
| TString
| TReference (target : string)
| TCollection (element : SemType).

(** Modelled from the spec: equality of semantic types, used where
    the resolver compares attribute and parameter types. *)
Fixpoint SemType_eqb (a b : SemType) : bool :=
  match a, b with
  | TPrimitive x, TPrimitive y => String.eqb x y
  | TString, TString => true
  | TReference x, TReference y => String.eqb x y
  | TCollection x, TCollection y => SemType_eqb x y
  | _, _ => false
  end.

(** Modelled from the spec: attribute visibility (private by convention). *)
Inductive Visibility := Private | Protected | Public.

(** Modelled from the spec: the Attribute of the data model. *)
Record Attribute := mkAttribute {
  a_name : string;
  a_type : SemType;
  a_default : option string;
  a_visibility : Visibility;
  derivesAccessor : bool;
  derivesMutator : bool;
  isConstExpr : bool
}.

(** Modelled from the spec: polymorphism kind of a Method. *)
Inductive PolyKind := PNone | PVirtual | POverride | PPureVirtual.

(** Modelled from the spec: a method parameter (name, type, optional default). *)
Record MParam := mkMParam {
  mp_name : string;
  mp_type : SemType;
  mp_default : option string
}.

(** Modelled from the spec: the Method of the data model; a return
    type of [None] stands for no returned value. *)
Record Method := mkMethod {
  m_name : string;
  m_return : option SemType;
  m_params : list MParam;
  m_const : bool;
  m_kind : PolyKind;
  m_hasBody : bool
}.

(** Modelled from the spec: the Entity of the data model.  The
    resolver distinguishes concrete from abstract-declared entities,
    hence [e_abstract]. *)
Record Entity := mkEntity {
  e_name : string;
  e_parent : option string;
  e_attributes : list Attribute;
  e_methods : list Method;
  e_doc : string;
  e_abstract : bool
}.

(** Modelled from the spec: the schema is the sequence of its
    entities in declaration order ([allEntities]). *)
Definition Schema := list Entity.

(** Modelled from the spec: the error taxonomy of section 7. *)
Inductive ErrorKind :=
| UnknownParentError
| CyclicInheritanceError
| AttributeTypeConflictError
| InvalidOverrideError
| UnimplementedAbstractMethodError
| DuplicateMethodSignatureError.

(** Modelled from the spec: a failure names its kind and, when known,
    the offending entity. *)
Record Failure := mkFailure {
  errorKind : ErrorKind;
  offender : option string
}.

(** Modelled from the spec: the outcome of a fallible operation
    ([X or ResolutionError]). *)
Inductive Result (A : Type) :=
| Ok (a : A)
| Err (f : Failure).
Arguments Ok {A} a.
Arguments Err {A} f.

Definition bind {A B} (m : Result A) (k : A -> Result B) : Result B :=
  match m with
  | Ok a => k a
  | Err f => Err f
  end.

Notation "x <- m ;; k" := (bind m (fun x => k))
  (at level 61, m at next level, right associativity).

(** Applies [f] to the elements in order and stops at the first failure. *)
Fixpoint mapM {A B} (f : A -> Result B) (l : list A) : Result (list B) :=
  match l with
  | [] => Ok []
  | x :: rest => y <- f x ;; ys <- mapM f rest ;; Ok (y :: ys)
  end.

Fixpoint foldM {A B} (f : B -> A -> Result B) (l : list A) (acc : B) : Result B :=
  match l with
  | [] => Ok acc
  | x :: rest => acc' <- f acc x ;; foldM f rest acc'
  end.

(** Modelled from the spec: [entity(name) -> Entity or NotFound]. *)
Definition entity (s : Schema) (n : string) : option Entity :=
  find (fun e => String.eqb (e_name e) n) s.

(** Modelled from the spec: [allEntities() -> sequence<Entity>]. *)
Definition allEntities (s : Schema) : list Entity := s.

(** Modelled from the spec: [parentOf(entity) -> Entity or None],
    failing with UnknownParentError when the declared parent is absent
    from the schema. *)
Definition parentOf (s : Schema) (e : Entity) : Result (option Entity) :=
  match e_parent e with
  | None => Ok None
  | Some p =>
      match entity s p with
      | Some pe => Ok (Some pe)
      | None => Err (mkFailure UnknownParentError (Some (e_name e)))
      end
  end.

(** Modelled from the spec: the upstream boundary of section 6 with
    the uniqueness of entity names of section 3: entity names unique,
    attribute and method names non-empty and unique within their
    entity, every declared parent resolvable in the schema. *)
Definition namesUnique (s : Schema) : Prop := NoDup (map e_name s).

Definition parentsResolvable (s : Schema) : Prop :=
  forall e p, In e s -> e_parent e = Some p -> entity s p <> None.

Definition membersNamed (e : Entity) : Prop :=
  NoDup (map a_name (e_attributes e)) /\ NoDup (map m_name (e_methods e))
  /\ Forall (fun a => a_name a <> EmptyString) (e_attributes e)
  /\ Forall (fun m => m_name m <> EmptyString) (e_methods e).

Definition upstreamContract (s : Schema) : Prop :=
  namesUnique s /\ parentsResolvable s /\ Forall membersNamed s.

(** Modelled from the spec: the inheritance graph.  [b] is the parent
    of [a] when the entity named [a] declares [b]; an ancestor is a
    parent, a parent of a parent, and so on. *)
Definition parentStep (s : Schema) (a b : string) : Prop :=
  exists e, entity s a = Some e /\ e_parent e = Some b.

Definition ancestorOf (s : Schema) : string -> string -> Prop :=
  clos_trans_1n string (parentStep s).

Definition cyclic (s : Schema) : Prop := exists n, ancestorOf s n n.

Definition acyclic (s : Schema) : Prop := forall n, ~ ancestorOf s n n.

(** *** Hierarchy resolver *)

(** Modelled from the spec: the visited-set walk from an entity
    toward its root.  It fails with CyclicInheritanceError when an
    entity is met again before a root is reached, and otherwise yields
    the ancestors met, nearest first.  [fuel] bounds the number of
    steps; [None] means the bound was hit. *)
Fixpoint walkToRoot (s : Schema) (fuel : nat) (visited : list string) (e : Entity)
  : option (Result (list Entity)) :=
  match fuel with
  | 0 => None
  | S fuel' =>
      if mem (e_name e) visited then
        Some (Err (mkFailure CyclicInheritanceError (Some (e_name e))))
      else
        match parentOf s e with
        | Err f => Some (Err f)
        | Ok None => Some (Ok [])
        | Ok (Some p) =>
            match walkToRoot s fuel' (e_name e :: visited) p with
            | Some (Ok up) => Some (Ok (p :: up))
            | other => other
            end
        end
  end.

(** Modelled from the spec: the ancestor chain of an entity,
    root first: walk the parent pointers and reverse.  A walk visits
    each entity at most once, so one step more than the schema has
    entities is enough; a walk that were to need more would have met
    an entity twice. *)
Definition ancestorChain (s : Schema) (e : Entity) : Result (list Entity) :=
  match walkToRoot s (S (List.length s)) [] e with
  | Some (Ok up) => Ok (rev up)
  | Some (Err f) => Err f
  | None => Err (mkFailure CyclicInheritanceError (Some (e_name e)))
  end.

(** Modelled from the spec: one step of the top-down attribute merge.
    The mapping name -> Attribute is kept as a list with one entry per
    name, in the order the names were first declared.  An attribute
    whose name is present replaces the entry when the types agree and
    fails with AttributeTypeConflictError when they differ. *)
Fixpoint applyAttribute (owner : string) (merged : list Attribute) (a : Attribute)
  : Result (list Attribute) :=
  match merged with
  | [] => Ok [a]
  | b :: rest =>
      if String.eqb (a_name b) (a_name a) then
        if SemType_eqb (a_type b) (a_type a) then Ok (a :: rest)
        else Err (mkFailure AttributeTypeConflictError (Some owner))
      else
        rest' <- applyAttribute owner rest a ;; Ok (b :: rest')
  end.

Definition applyEntityAttributes (merged : list Attribute) (e : Entity)
  : Result (list Attribute) :=
  foldM (applyAttribute (e_name e)) (e_attributes e) merged.

(** Modelled from the spec: merge attributes top-down, starting from
    the empty mapping: each ancestor's own attributes in root-to-leaf
    order, then the entity's own ([closure] is the chain followed by
    the entity). *)
Definition mergeAttributes (closure : list Entity) : Result (list Attribute) :=
  foldM applyEntityAttributes closure [].

(** Modelled from the spec: signature identity is name plus
    parameter types. *)
Fixpoint types_eqb (a b : list SemType) : bool :=
  match a, b with
  | [], [] => true
  | x :: a', y :: b' => SemType_eqb x y && types_eqb a' b'
  | _, _ => false
  end.

Definition same_signature (a b : Method) : bool :=
  String.eqb (m_name a) (m_name b)
  && types_eqb (map mp_type (m_params a)) (map mp_type (m_params b)).

Definition is_virtual (m : Method) : bool :=
  match m_kind m with
  | PNone => false
  | PVirtual | POverride | PPureVirtual => true
  end.

Definition is_override (m : Method) : bool :=
  match m_kind m with POverride => true | _ => false end.

Definition is_pure (m : Method) : bool :=
  match m_kind m with PPureVirtual => true | _ => false end.

(** A child method that matches an ancestor's virtual method is
    tagged override; one that is itself declared pure-virtual stays
    so, it implements nothing. *)
Definition tagOverride (m : Method) : Method :=
  if is_pure m then m
  else mkMethod (m_name m) (m_return m) (m_params m) (m_const m) POverride (m_hasBody m).

(** Modelled from the spec: one step of the method merge.  A method
    declared override that matches no virtual method met so far fails
    with InvalidOverrideError. *)
Fixpoint applyMethod (owner : string) (merged : list Method) (m : Method)
  : Result (list Method) :=
  match merged with
  | [] =>
      if is_override m then Err (mkFailure InvalidOverrideError (Some owner))
      else Ok [m]
  | b :: rest =>
      if same_signature b m then
        if is_virtual b then Ok (tagOverride m :: rest)
        else if is_override m then Err (mkFailure InvalidOverrideError (Some owner))
        else Ok (m :: rest)
      else
        rest' <- applyMethod owner rest m ;; Ok (b :: rest')
  end.

Definition applyEntityMethods (merged : list Method) (e : Entity)
  : Result (list Method) :=
  foldM (applyMethod (e_name e)) (e_methods e) merged.

(** Modelled from the spec: the closure index, the number of
    entities that name [e] as their parent. *)
Definition is_child_of (e c : Entity) : bool :=
  match e_parent c with
  | Some p => String.eqb p (e_name e)
  | None => false
  end.

Definition childCount (s : Schema) (e : Entity) : nat :=
  List.length (filter (is_child_of e) s).

(** Modelled from the spec: merge the methods of the closure, then
    require of a concrete leaf entity (not declared abstract, without
    children) that no pure-virtual method is left without an
    override. *)
Definition mergeMethods (s : Schema) (e : Entity) (closure : list Entity)
  : Result (list Method) :=
  merged <- foldM applyEntityMethods closure [] ;;
  if negb (e_abstract e) && (childCount s e =? 0)%nat && existsb is_pure merged then
    Err (mkFailure UnimplementedAbstractMethodError (Some (e_name e)))
  else Ok merged.

(** Modelled from the spec: the entity a reference-typed attribute
    points to, also through collections. *)
Fixpoint referenced (t : SemType) : option string :=
  match t with
  | TReference n => Some n
  | TCollection t' => referenced t'
  | TPrimitive _ | TString => None
  end.

Fixpoint referencedAll (attrs : list Attribute) : list string :=
  match attrs with
  | [] => []
  | a :: rest =>
      match referenced (a_type a) with
      | Some n => n :: referencedAll rest
      | None => referencedAll rest
      end
  end.

(** Modelled from the spec: dependency edges entity -> referenced
    entity.  A self-reference is permitted and gives no edge: a unit
    does not wait for itself. *)
Definition references (e : Entity) : list string :=
  nodup string_dec
    (filter (fun n => negb (String.eqb n (e_name e))) (referencedAll (e_attributes e))).

(** Modelled from the spec: the ResolvedEntity, the entity with its
    computed closure. *)
Record ResolvedEntity := mkResolved {
  r_entity : Entity;
  r_chain : list Entity;
  r_attributes : list Attribute;
  r_methods : list Method;
  r_references : list string;
  r_childCount : nat;
  r_chainChildCounts : list nat
}.

(** Modelled from the spec: [resolve].  The steps run over the whole
    schema in the order the component design lists them: the walks
    (cycle detection and ancestor chains), the attribute merges, the
    method merges.  The mapping is returned as the list of its
    bindings in declaration order. *)
Definition chainOf (s : Schema) (e : Entity) : Result (Entity * list Entity) :=
  chain <- ancestorChain s e ;; Ok (e, chain).

Definition attributesOf (ec : Entity * list Entity)
  : Result (Entity * list Entity * list Attribute) :=
  attrs <- mergeAttributes (snd ec ++ [fst ec]) ;; Ok (ec, attrs).

Definition closureOf (s : Schema) (eca : Entity * list Entity * list Attribute)
  : Result (string * ResolvedEntity) :=
  let '(e, chain, attrs) := eca in
  methods <- mergeMethods s e (chain ++ [e]) ;;
  Ok (e_name e,
      mkResolved e chain attrs methods (references e)
                 (childCount s e) (map (childCount s) chain)).

Definition resolve (s : Schema) : Result (list (string * ResolvedEntity)) :=
  chains <- mapM (chainOf s) (allEntities s) ;;
  merged <- mapM attributesOf chains ;;
  mapM (closureOf s) merged.

(** *** Member synthesizer *)

(** Modelled from the spec: a synthesized constructor, its parameters
    given by the attributes they initialise. *)
Record CtorSig := mkCtorSig {
  k_params : list Attribute;
  k_explicit : bool
}.

(** Modelled from the spec: the EmittableEntity, a resolved entity
    with its concrete member lists. *)
Record EmittableEntity := mkEmittable {
  em_resolved : ResolvedEntity;
  em_constructors : list CtorSig;
  em_virtualDtor : bool;
  em_methods : list Method;
  em_accessors : list Method
}.

Definition capitalize (s : string) : string :=
  match s with
  | EmptyString => EmptyString
  | String c rest => String (upper_ascii c) rest
  end.

(** Modelled from the spec: the getter [get<CapitalizedName>],
    returning the attribute type, const. *)
Definition getterOf (a : Attribute) : Method :=
  mkMethod ("get" ++ capitalize (a_name a))%string (Some (a_type a)) [] true PNone false.

(** Modelled from the spec: the setter [set<CapitalizedName>], one
    parameter of the attribute type, non-const. *)
Definition setterOf (a : Attribute) : Method :=
  mkMethod ("set" ++ capitalize (a_name a))%string None
           [mkMParam "value" (a_type a) None] false PNone false.

Definition accessorsOf (a : Attribute) : list Method :=
  (if derivesAccessor a then [getterOf a] else [])
  ++ (if derivesMutator a then [setterOf a] else []).

(** Modelled from the spec: an attribute is required when it has no
    default value. *)
Definition isRequired (a : Attribute) : bool :=
  match a_default a with
  | None => true
  | Some _ => false
  end.

(** Modelled from the spec: a default constructor always; a
    parameterized one when the entity declares required attributes,
    taking them in declaration order, explicit when it has exactly
    one parameter. *)
Definition constructorsOf (e : Entity) : list CtorSig :=
  let required := filter isRequired (e_attributes e) in
  mkCtorSig [] false
  :: match required with
     | [] => []
     | _ :: _ => [mkCtorSig required (List.length required =? 1)%nat]
     end.

(** Modelled from the spec: the destructor is virtual for an entity
    that has at least one child or that inherits a virtual destructor,
    that is, one of whose ancestors has a child. *)
Definition virtualDtor (r : ResolvedEntity) : bool :=
  (0 <? r_childCount r)%nat || existsb (fun n => (0 <? n)%nat) (r_chainChildCounts r).

Fixpoint hasDuplicateSignature (ms : list Method) : bool :=
  match ms with
  | [] => false
  | m :: rest => existsb (same_signature m) rest || hasDuplicateSignature rest
  end.

(** Modelled from the spec: [synthesize].  The methods declared on
    the entity pass through unchanged; two members of one signature
    fail with DuplicateMethodSignatureError. *)
Definition synthesize (r : ResolvedEntity) : Result EmittableEntity :=
  let e := r_entity r in
  let accessors := flat_map accessorsOf (e_attributes e) in
  if hasDuplicateSignature (e_methods e ++ accessors) then
    Err (mkFailure DuplicateMethodSignatureError (Some (e_name e)))
  else
    Ok (mkEmittable r (constructorsOf e) (virtualDtor r) (e_methods e) accessors).

(** *** Emission engine *)

(** Modelled from the spec: the OutputUnit. *)
Record OutputUnit := mkUnit {
  u_id : string;
  u_dependencies : list string;
  u_text : string
}.

Definition newline : string := String "010"%char EmptyString.

(** Modelled from the spec: the unit identifier derived from the
    entity name. *)
Definition unitId (n : string) : string := (n ++ ".h")%string.

(** Modelled from the spec: the namespace opened and closed around
    every unit; the spec leaves its name open. *)
Definition unitNamespace : string := "model".

Fixpoint cppType (t : SemType) : string :=
  match t with
  | TPrimitive n => n
  | TString => "std::string"
  | TReference n => ("std::shared_ptr<" ++ n ++ ">")%string
  | TCollection t' => ("std::vector<" ++ cppType t' ++ ">")%string
  end.

(** The upstream headers a type needs. *)
Fixpoint baseIncludes (t : SemType) : list string :=
  match t with
  | TPrimitive _ => []
  | TString => ["string"]
  | TReference _ => ["memory"]
  | TCollection t' => "vector" :: baseIncludes t'
  end.

Fixpoint insertSorted (x : string) (l : list string) : list string :=
  match l with
  | [] => [x]
  | y :: rest => if String.leb x y then x :: l else y :: insertSorted x rest
  end.

Definition sortStrings (l : list string) : list string :=
  fold_right insertSorted [] l.

(** Deduplicated and alphabetically sorted. *)
Definition canonical (l : list string) : list string :=
  sortStrings (nodup string_dec l).

Definition methodTypes (m : Method) : list SemType :=
  match m_return m with
  | Some t => t :: map mp_type (m_params m)
  | None => map mp_type (m_params m)
  end.

Definition usedTypes (em : EmittableEntity) : list SemType :=
  let e := r_entity (em_resolved em) in
  map a_type (e_attributes e)
  ++ flat_map methodTypes (em_methods em ++ em_accessors em).

(** Modelled from the spec: the include lines, upstream first, then
    the project include of the parent, then the entity-specific
    includes of the referenced entities; each group deduplicated and
    sorted. *)
Definition includeLines (em : EmittableEntity) : list string :=
  let r := em_resolved em in
  let parent := match e_parent (r_entity r) with Some p => [p] | None => [] end in
  map (fun h => ("#include <" ++ h ++ ">")%string)
      (canonical (flat_map baseIncludes (usedTypes em)))
  ++ map (fun n => ("#include " ++ quoted (unitId n))%string) (canonical parent)
  ++ map (fun n => ("#include " ++ quoted (unitId n))%string)
         (canonical (filter (fun n => negb (mem n parent)) (r_references r))).

Definition renderAttribute (a : Attribute) : string :=
  ("    " ++ (if isConstExpr a then "constexpr " else EmptyString)
   ++ cppType (a_type a) ++ " " ++ a_name a
   ++ match a_default a with
      | Some d => " = " ++ d
      | None => EmptyString
      end ++ ";")%string.

Definition renderParam (p : MParam) : string :=
  (cppType (mp_type p) ++ " " ++ mp_name p
   ++ match mp_default p with
      | Some d => " = " ++ d
      | None => EmptyString
      end)%string.

Definition renderMethod (m : Method) : string :=
  ("    "
   ++ match m_kind m with
      | PVirtual | PPureVirtual => "virtual "
      | PNone | POverride => EmptyString
      end
   ++ match m_return m with
      | Some t => cppType t
      | None => "void"
      end
   ++ " " ++ m_name m
   ++ "(" ++ String.concat ", " (map renderParam (m_params m)) ++ ")"
   ++ (if m_const m then " const" else EmptyString)
   ++ match m_kind m with
      | POverride => " override"
      | PPureVirtual => " = 0"
      | PNone | PVirtual => EmptyString
      end
   ++ ";")%string.

Definition renderCtor (cls : string) (k : CtorSig) : string :=
  ("    " ++ (if k_explicit k then "explicit " else EmptyString)
   ++ cls ++ "("
   ++ String.concat ", "
        (map (fun a => (cppType (a_type a) ++ " " ++ a_name a)%string) (k_params k))
   ++ ");")%string.

Definition renderDtor (cls : string) (virt : bool) : string :=
  ("    " ++ (if virt then "virtual " else EmptyString) ++ "~" ++ cls ++ "();")%string.

(** Modelled from the spec: the lines of a unit in the order of
    section 4.4: includes, namespace open, documentation block, class
    declaration with its inheritance clause, private section (own
    attributes in declaration order), public section (constructors,
    destructor, explicit methods, then accessors and mutators),
    namespace close. *)
Definition unitLines (em : EmittableEntity) : list string :=
  let e := r_entity (em_resolved em) in
  includeLines em
  ++ [("namespace " ++ unitNamespace ++ " {")%string]
  ++ ["/**"; (" * " ++ e_doc e)%string; " */"]
  ++ [("class " ++ e_name e
       ++ match e_parent e with
          | Some p => " : public " ++ p
          | None => EmptyString
          end ++ " {")%string]
  ++ ["private:"]
  ++ map renderAttribute (e_attributes e)
  ++ ["public:"]
  ++ map (renderCtor (e_name e)) (em_constructors em)
  ++ [renderDtor (e_name e) (em_virtualDtor em)]
  ++ map renderMethod (em_methods em)
  ++ map renderMethod (em_accessors em)
  ++ ["};"]
  ++ [("} // namespace " ++ unitNamespace)%string].

(** Modelled from the spec: [render], one unit per entity; the
    dependencies are the parent's unit and the referenced entities'
    units. *)
Definition render (em : EmittableEntity) : OutputUnit :=
  let r := em_resolved em in
  let e := r_entity r in
  mkUnit (unitId (e_name e))
         (match e_parent e with Some p => [unitId p] | None => [] end
          ++ map unitId (r_references r))
         (String.concat newline (unitLines em)).

(** *** Generation driver *)

(** Modelled from the spec: diagnostics and the GenerationResult. *)
Inductive Severity := Fatal | NonFatal.

Record Diagnostic := mkDiagnostic {
  severity : Severity;
  entityName : option string;
  message : string;
  d_errorKind : ErrorKind
}.

Record GenerationResult := mkResult {
  units : list (string * OutputUnit);
  diagnostics : list Diagnostic
}.

Definition describe (k : ErrorKind) : string :=
  match k with
  | UnknownParentError => "declared parent is absent from the schema"
  | CyclicInheritanceError => "entity is its own ancestor"
  | AttributeTypeConflictError => "attribute redeclared with a different type"
  | InvalidOverrideError => "override matches no virtual method of an ancestor"
  | UnimplementedAbstractMethodError => "pure-virtual method left without an override"
  | DuplicateMethodSignatureError => "two members share one signature"
  end.

Definition diagnose (sev : Severity) (f : Failure) : Diagnostic :=
  mkDiagnostic sev (offender f) (describe (errorKind f)) (errorKind f).

(** Modelled from the spec: synthesis and rendering of the resolved
    entities one by one; a failure is recorded as a non-fatal
    diagnostic, the unit of that entity is left out and the run goes
    on. *)
Fixpoint emitAll (resolved : list (string * ResolvedEntity)) : GenerationResult :=
  match resolved with
  | [] => mkResult [] []
  | (_, r) :: rest =>
      let done := emitAll rest in
      match synthesize r with
      | Ok em =>
          let u := render em in
          mkResult ((u_id u, u) :: units done) (diagnostics done)
      | Err f =>
          mkResult (units done) (diagnose NonFatal f :: diagnostics done)
      end
  end.

(** Modelled from the spec: [generate].  The resolver runs once; when
    it fails the run is aborted with no unit and one fatal
    diagnostic. *)
Definition generate (s : Schema) : GenerationResult :=
  match resolve s with
  | Err f => mkResult [] [diagnose Fatal f]
  | Ok resolved => emitAll resolved
  end.

(** *** The example schema of the specification *)

Definition attr (n : string) (t : SemType) (d : option string) : Attribute :=
  mkAttribute n t d Private false false false.

Definition meth (n : string) (ret : option SemType) (ps : list MParam)
           (const : bool) (k : PolyKind) : Method :=
  mkMethod n ret ps const k false.

Definition person : Entity :=
  mkEntity "Person" None
    [attr "name" TString None; attr "age" (TPrimitive "int") None]
    [meth "getName" (Some TString) [] true PNone;
     meth "setName" None [mkMParam "value" TString None] false PNone;
     meth "getAge" (Some (TPrimitive "int")) [] true PNone;
     meth "display" None [] true PVirtual]
    "A person entity" false.

Definition employee : Entity :=
  mkEntity "Employee" (Some "Person")
    [attr "employeeId" TString None; attr "salary" (TPrimitive "double") (Some "0.0")]
    [meth "getEmployeeId" (Some TString) [] true PNone;
     meth "setSalary" None [mkMParam "value" (TPrimitive "double") None] false PNone;
     meth "display" None [] true POverride]
    "An employee entity" false.

Definition exampleSchema : Schema := [person; employee].

End Generator.

(** ** Properties of resolution *)

Module ResolverProps.
Import Generator.

(** The attribute and method merges of every entity succeed. *)
Definition mergesSucceed (s : Schema) : Prop :=
  forall e chain,
    In e s ->
    ancestorChain s e = Ok chain ->
    (exists attrs, mergeAttributes (chain ++ [e]) = Ok attrs)
    /\ (exists methods, mergeMethods s e (chain ++ [e]) = Ok methods).

(** The binding [resolve] builds for [e]. *)
Definition resolvedFrom (s : Schema) (e : Entity) (p : string * ResolvedEntity) : Prop :=
  exists chain attrs methods,
    ancestorChain s e = Ok chain
    /\ mergeAttributes (chain ++ [e]) = Ok attrs
    /\ mergeMethods s e (chain ++ [e]) = Ok methods
    /\ p = (e_name e,
            mkResolved e chain attrs methods (references e)
                       (childCount s e) (map (childCount s) chain)).

(** The entry bound to [n] in a merged attribute mapping. *)
Definition entriesNamed (n : string) (merged : list Attribute) : list Attribute :=
  filter (fun x => String.eqb (a_name x) n) merged.

(** What the specification promises of [resolve] on a schema: a
    mapping with exactly one binding for each entity. *)
Definition resolvesEveryEntity (s : Schema) : Prop :=
  exists m, resolve s = Ok m /\ map fst m = map e_name s /\ NoDup (map fst m).

(** [n] is bound to an attribute of type [t]. *)
Definition bound (n : string) (t : SemType) (merged : list Attribute) : Prop :=
  exists y, In y merged /\ a_name y = n /\ a_type y = t.

(** The walks of [resolve] all end at a root: the attribute merge is
    reached. *)
Definition walksSucceed (s : Schema) : Prop :=
  exists chains, mapM (chainOf s) (allEntities s) = Ok chains.

(** Schemas in which a child redeclares an attribute of its parent,
    with another type and with the same type. *)
Definition personNamed : Entity :=
  mkEntity "Person" None [attr "name" TString None] [] "A person entity" false.

Definition employeeRetyped : Entity :=
  mkEntity "Employee" (Some "Person") [attr "name" (TPrimitive "int") None] []
           "An employee entity" false.

Definition employeeRenamed : Entity :=
  mkEntity "Employee" (Some "Person") [attr "name" TString (Some "anonymous")] []
           "An employee entity" false.

Definition conflictSchema : Schema := [personNamed; employeeRetyped].

Definition overrideSchema : Schema := [personNamed; employeeRenamed].

(** Inheritance cycles of length one, two and three. *)
Definition ent (n : string) (p : option string) : Entity :=
  mkEntity n p [] [] EmptyString false.

Definition cycle1 : Schema := [ent "A" (Some "A")].
Definition cycle2 : Schema := [ent "A" (Some "B"); ent "B" (Some "A")].
Definition cycle3 : Schema :=
  [ent "Root" None; ent "A" (Some "B"); ent "B" (Some "C"); ent "C" (Some "A")].

(** A cycle behind an entity whose declared parent is absent from the
    schema. *)
Definition danglingCycle : Schema := [ent "X" (Some "Missing"); ent "A" (Some "A")].
End ResolverProps.

(** ** Member functions read off a generated unit *)

Module Members.
Import Text Preprocessor Decls.

Record MethodDecl := mkMethodDecl {
  md_virtual : bool;
  md_return : string;
  md_name : string;
  md_params : list Param;
  md_const : bool;
  md_noexcept : bool;
  md_body : option string
}.

(** The member functions declared under [// Public methods] and the
    ones defined in the class under [// Getters and Setters]. *)
Definition methods_section (lines : list string) : list string :=
  between (is_line "// Public methods") (is_line "// Getters and Setters") lines.

Definition inline_section (lines : list string) : list string :=
  between (is_line "// Getters and Setters") (is_line "};") lines.

(** Member declarations of a section: blank lines dropped, a line
    joined with the lines that follow it until one ends in a semicolon
    or in a closing brace. *)
Fixpoint join_members (pending : string) (lines : list string) : list string :=
  match lines with
  | [] => if is_empty pending then [] else [pending]
  | l :: rest =>
      let t := squeeze l in
      if is_empty t then join_members pending rest
      else
        let cur := if is_empty pending then t else (pending ++ " " ++ t)%string in
        if ends_with ";"%char cur || ends_with "}"%char cur
        then cur :: join_members EmptyString rest
        else join_members cur rest
  end.

Definition strip_brace (s : string) : string :=
  if ends_with "}"%char s then drop_last s else s.

(** [std::string getName() const;], [virtual void display() const;] or
    [void setEmail(const std::string& value) { email = value; }]. *)
Definition parse_method (decl : string) : option MethodDecl :=
  let '(mods, rest) := split_modifiers (words decl) in
  match break_at "("%char (unwords rest) with
  | (head, Some tail) =>
      match rev (words head) with
      | n :: t :: ts =>
          match break_at ")"%char tail with
          | (ps, Some after) =>
              let '(quals, body) := break_at "{"%char after in
              let qs := words (strip_semicolon (squeeze quals)) in
              Some (mkMethodDecl (mem "virtual" mods) (unwords (rev (t :: ts))) n
                      (parse_params ps) (mem "const" qs) (mem "noexcept" qs)
                      (option_map (fun b => squeeze (strip_brace (squeeze b))) body))
          | (_, None) => None
          end
      | _ => None
      end
  | (_, None) => None
  end.

Definition declared_methods (lines : list string) : list MethodDecl :=
  filter_map parse_method (join_members EmptyString (methods_section lines)).

Definition inline_methods (lines : list string) : list MethodDecl :=
  filter_map parse_method (join_members EmptyString (inline_section lines)).

(** The member functions of these two sections; constructors and the
    destructor are declared in a section of their own and are not among
    them. *)
Definition all_methods (lines : list string) : list MethodDecl :=
  declared_methods lines ++ inline_methods lines.

(** A parameter type without [const] and without the reference mark;
    parameters that differ in these only are not told apart. *)
Definition bare_type (t : string) : string :=
  value_type (unwords (filter (fun w => negb (String.eqb w "const")) (words t))).

(** What decides whether a member function of a derived class
    overrides one of a base: name, parameter types, constness. *)
Record Signature := mkSignature {
  sg_name : string;
  sg_params : list string;
  sg_const : bool
}.

Definition signature_of (m : MethodDecl) : Signature :=
  mkSignature (md_name m) (map (fun p => bare_type (p_type p)) (md_params m)) (md_const m).

Fixpoint strings_eqb (a b : list string) : bool :=
  match a, b with
  | [], [] => true
  | x :: a', y :: b' => String.eqb x y && strings_eqb a' b'
  | _, _ => false
  end.

Definition sig_eqb (a b : Signature) : bool :=
  String.eqb (sg_name a) (sg_name b)
  && strings_eqb (sg_params a) (sg_params b)
  && Bool.eqb (sg_const a) (sg_const b).

(** A class with its member functions. *)
Record ClassUnit := mkClassUnit {
  cu_class : ClassDecl;
  cu_methods : list MethodDecl
}.

Definition parse_unit (lines : list string) : option ClassUnit :=
  match parse_class lines with
  | Some c => Some (mkClassUnit c (all_methods lines))
  | None => None
  end.

Definition header_units : list ClassUnit :=
  filter_map parse_unit Units.generated_units.

Definition declares_virtual (u : ClassUnit) (sg : Signature) : bool :=
  existsb (fun m => md_virtual m && sig_eqb (signature_of m) sg) (cu_methods u).

(** The C++ rule for member functions: a class has a virtual member
    function of signature [sg] when it declares one [virtual], or when
    a base class has one; a function of the same signature declared in
    the derived class overrides it and is virtual without the keyword.
    [earlier] lists the classes most recent first. *)
Fixpoint method_virtual_in (earlier : list ClassUnit) (n : string) (sg : Signature)
  : bool :=
  match earlier with
  | [] => false
  | u :: before =>
      if String.eqb (cname (cu_class u)) n then
        declares_virtual u sg
        || match cbase (cu_class u) with
           | Some b => method_virtual_in before b sg
           | None => false
           end
      else method_virtual_in before n sg
  end.

Definition method_virtual (tu : list ClassUnit) (n : string) (sg : Signature) : bool :=
  method_virtual_in (rev tu) n sg.

(** The class whose declaration of [sg] is the one called on an object
    of class [n]: [n] itself when it declares [sg], else the first
    base that does.  The search is by signature; it agrees with the
    lookup by name of C++ where a derived class redeclares a name of a
    base only with the signature it has there, as Employee does. *)
Fixpoint implementer_in (earlier : list ClassUnit) (n : string) (sg : Signature)
  : option string :=
  match earlier with
  | [] => None
  | u :: before =>
      if String.eqb (cname (cu_class u)) n then
        if existsb (fun m => sig_eqb (signature_of m) sg) (cu_methods u) then Some n
        else match cbase (cu_class u) with
             | Some b => implementer_in before b sg
             | None => None
             end
      else implementer_in before n sg
  end.

Definition implementer (tu : list ClassUnit) (n : string) (sg : Signature)
  : option string :=
  implementer_in (rev tu) n sg.

(** The accessor convention: [getX] and [setX] stand for the member [x]. *)
Definition uncapitalize (s : string) : string :=
  match s with
  | EmptyString => EmptyString
  | String c rest =>
      let n := nat_of_ascii c in
      String (if ((65 <=? n) && (n <=? 90))%nat then ascii_of_nat (n + 32) else c) rest
  end.

Definition is_getter (m : MethodDecl) : bool := String.prefix "get" (md_name m).
Definition is_setter (m : MethodDecl) : bool := String.prefix "set" (md_name m).

Definition accessed_member (m : MethodDecl) : option string :=
  if is_getter m || is_setter m
  then Some (uncapitalize (String.substring 3 (String.length (md_name m) - 3) (md_name m)))
  else None.

(** The member an inline body reads ([return x;]) or writes ([x = v;]). *)
Definition body_member (m : MethodDecl) : option string :=
  match md_body m with
  | Some b =>
      match words b with
      | "return" :: x :: _ => Some (strip_semicolon x)
      | x :: "=" :: _ => Some x
      | _ => None
      end
  | None => None
  end.

End Members.

(** ** Inclusion of the units into a translation unit *)

Module Inclusion.
Import Text Units Preprocessor Decls.

(** The headers a translation unit can name. *)
Definition project_files : list (string * list string) :=
  [("Person.h", Person_h); ("Employee.h", Employee_h)].

Definition lookup_file (files : list (string * list string)) (n : string)
  : option (list string) :=
  option_map snd (find (fun p => String.eqb (fst p) n) files).

(** One line of a file, with inclusion: a quoted include that is
    reached and names a known file is replaced by the lines of that
    file, read by [read_file]; every other line is treated as by
    [pp_line]. *)
Definition expand_line (files : list (string * list string))
           (read_file : PState -> list string -> option PState)
           (st : PState) (line : string) : option PState :=
  match directive_of line with
  | Some (Include QuoteInclude n) =>
      if active st then
        match lookup_file files n with
        | Some ls => read_file st ls
        | None => Some (pp_line st line)
        end
      else Some (pp_line st line)
  | _ => Some (pp_line st line)
  end.

Definition no_quote_include (line : string) : bool :=
  match directive_of line with
  | Some (Include QuoteInclude _) => false
  | _ => true
  end.

(** Reading [lines] with inclusion.  [depth] bounds the nesting of
    includes, as compilers do; [None] means the bound was hit. *)
Fixpoint expand (depth : nat) (files : list (string * list string))
         (st : PState) (lines : list string) : option PState :=
  match depth with
  | 0 => None
  | S d =>
      fold_left
        (fun acc line =>
           match acc with
           | Some st' => expand_line files (expand d files) st' line
           | None => None
           end)
        lines (Some st)
  end.

(** What the compiler sees of [lines]. *)
Definition compiler_input (depth : nat) (defs : list string) (lines : list string)
  : option (list string) :=
  option_map (fun st => rev (emitted st))
             (expand depth project_files (mkPState defs [] []) lines).

Inductive Header := PersonHeader | EmployeeHeader.

Definition header_file (h : Header) : string :=
  match h with
  | PersonHeader => "Person.h"
  | EmployeeHeader => "Employee.h"
  end.

Definition include_line (h : Header) : string :=
  ("#include " ++ quoted (header_file h))%string.

(** A source file that includes the given headers, in that order. *)
Definition including (hs : list Header) : list string := map include_line hs.

Definition is_employee (h : Header) : bool :=
  match h with EmployeeHeader => true | PersonHeader => false end.

(** The classes a text defines, with their bases, in order. *)
Definition class_line (line : string) : option (string * option string) :=
  class_header [line].

Definition defined_classes (code : list string) : list (string * option string) :=
  filter_map class_line code.

(** The lines of the two files before their guard, and the lines
    between the guard and the directive that closes it; in the file of
    Employee, the lines on either side of the include of [Person.h]. *)
Definition person_pre : list string := firstn 2 Person_h.
Definition person_body : list string := firstn 57 (skipn 4 Person_h).
Definition employee_pre : list string := firstn 2 Employee_h.
Definition employee_body1 : list string := firstn 9 (skipn 4 Employee_h).
Definition employee_body2 : list string := firstn 42 (skipn 14 Employee_h).
Definition employee_post : list string := [EmptyString].

(** What reading the file of Person passes on to the compiler, the
    first time and any later time; the same for the file of Employee,
    the first time when Person was not read before, the first time
    when it was, and any later time. *)
Definition person_first : list string := person_pre ++ person_body.
Definition person_again : list string := person_pre.
Definition employee_first : list string :=
  employee_pre ++ employee_body1 ++ person_first ++ employee_body2 ++ employee_post.
Definition employee_after_person : list string :=
  employee_pre ++ employee_body1 ++ person_again ++ employee_body2 ++ employee_post.
Definition employee_again : list string := employee_pre ++ employee_post.

(** The classes that [hs], included into a translation unit in which
    the guard of Person is defined or not ([p]) and that of Employee is
    defined or not ([e]), add to it. *)
Definition added_classes (p e : bool) (hs : list Header)
  : list (string * option string) :=
  (if negb p && negb (match hs with [] => true | _ :: _ => false end)
   then [("Person", None)] else [])
  ++ (if negb e && existsb is_employee hs
      then [("Employee", Some "Person")] else []).

(** Depth of open braces after [s], starting from [depth]; [None] when
    a closing brace has nothing to close. *)
Fixpoint scan_braces (depth : nat) (s : string) : option nat :=
  match s with
  | EmptyString => Some depth
  | String c rest =>
      if Ascii.eqb c "{"%char then scan_braces (S depth) rest
      else if Ascii.eqb c "}"%char then
        match depth with
        | 0 => None
        | S d => scan_braces d rest
        end
      else scan_braces depth rest
  end.

Fixpoint scan_lines (depth : nat) (lines : list string) : option nat :=
  match lines with
  | [] => Some depth
  | l :: rest =>
      match scan_braces depth l with
      | Some d => scan_lines d rest
      | None => None
      end
  end.

End Inclusion.

(** * Proofs *)

Import Text Units Preprocessor Decls HeaderProps Generator ResolverProps.



Lemma mem_In x l : mem x l = true <-> In x l.
Proof.
  unfold mem. rewrite existsb_exists. split.
  - intros [y [Hy E]]. apply String.eqb_eq in E. now subst.
  - intros H. exists x. split; [assumption | apply String.eqb_refl].
Qed.

Lemma mem_false_notin x l : mem x l = false <-> ~ In x l.
Proof.
  rewrite <- mem_In. destruct (mem x l); split; intros; congruence.
Qed.

Section PreprocessorFacts.

Lemma pp_lines_app st l1 l2 :
  pp_lines st (l1 ++ l2) = pp_lines (pp_lines st l1) l2.
Proof. apply fold_left_app. Qed.

Lemma pp_lines_cons st l ls :
  pp_lines st (l :: ls) = pp_lines (pp_line st l) ls.
Proof. reflexivity. Qed.

Lemma pp_plain st ls :
  active st = true ->
  forallb is_plain ls = true ->
  pp_lines st ls = mkPState (defined st) (conds st) (rev ls ++ emitted st).
Proof.
  revert st. induction ls as [|l ls IH]; intros st Hact Hall.
  - destruct st; reflexivity.
  - simpl in Hall. apply andb_true_iff in Hall as [Hl Hall].
    rewrite pp_lines_cons.
    assert (E : pp_line st l = mkPState (defined st) (conds st) (l :: emitted st)).
    { unfold pp_line. unfold is_plain in Hl.
      destruct (directive_of l); [discriminate|]. now rewrite Hact. }
    rewrite E, IH by assumption. simpl.
    rewrite <- app_assoc. reflexivity.
Qed.

Lemma pp_skipped st ls :
  active st = false ->
  forallb is_flat ls = true ->
  pp_lines st ls = st.
Proof.
  revert st. induction ls as [|l ls IH]; intros st Hact Hall; [reflexivity|].
  simpl in Hall. apply andb_true_iff in Hall as [Hl Hall].
  rewrite pp_lines_cons.
  assert (E : pp_line st l = st).
  { unfold pp_line. unfold is_flat in Hl.
    destruct (directive_of l) as [[g|g| |f t]|]; try discriminate;
      rewrite Hact; reflexivity. }
  rewrite E. apply IH; assumption.
Qed.

Lemma pp_taken st ls :
  active st = true ->
  forallb is_flat ls = true ->
  exists ds,
    pp_lines st ls
    = mkPState (ds ++ defined st) (conds st) (rev (filter passes ls) ++ emitted st).
Proof.
  revert st. induction ls as [|l ls IH]; intros st Hact Hall.
  - exists []. destruct st; reflexivity.
  - simpl in Hall. apply andb_true_iff in Hall as [Hl Hall].
    rewrite pp_lines_cons. simpl filter.
    unfold is_flat in Hl. unfold passes at 1. unfold pp_line.
    destruct (directive_of l) as [[g|g| |f t]|]; try discriminate; rewrite Hact.
    + destruct (IH (mkPState (g :: defined st) (conds st) (emitted st)) Hact Hall)
        as [ds E].
      exists (ds ++ [g]). rewrite E. simpl. rewrite <- app_assoc. reflexivity.
    + destruct (IH (mkPState (defined st) (conds st) (l :: emitted st)) Hact Hall)
        as [ds E].
      exists ds. rewrite E. simpl. rewrite <- app_assoc. reflexivity.
    + destruct (IH (mkPState (defined st) (conds st) (l :: emitted st)) Hact Hall)
        as [ds E].
      exists ds. rewrite E. simpl. rewrite <- app_assoc. reflexivity.
Qed.

(** Reading a guarded unit while its macro is undefined passes the
    whole unit on and defines the macro. *)
Lemma pp_guarded_first g pre body post lines defs em :
  guarded g pre body post lines ->
  ~ In g defs ->
  exists ds,
    pp_lines (mkPState defs [] em) lines
    = mkPState (ds ++ g :: defs) []
               (rev post ++ rev (filter passes body) ++ rev pre ++ em).
Proof.
  intros [(l1 & l2 & l3 & -> & D1 & D2 & D3) Hpre Hpost Hbody] Hg.
  assert (Hp : forall ls, forallb (fun l => is_plain l && negb (is_code l)) ls = true ->
                          forallb is_plain ls = true).
  { intros ls H. rewrite forallb_forall in *. intros x Hx.
    specialize (H x Hx). now apply andb_true_iff in H. }
  rewrite pp_lines_app, (pp_plain _ pre) by (auto; reflexivity).
  rewrite !pp_lines_cons. cbn [defined conds emitted].
  unfold pp_line at 2. rewrite D1. cbn [defined conds emitted].
  apply mem_false_notin in Hg. rewrite Hg. cbn [negb].
  unfold pp_line at 1. rewrite D2. cbn [active conds forallb andb defined emitted].
  rewrite pp_lines_app.
  destruct (pp_taken (mkPState (g :: defs) [true] (rev pre ++ em)) body eq_refl Hbody)
    as [ds E].
  rewrite E. cbn [defined conds emitted].
  rewrite pp_lines_cons. unfold pp_line at 1. rewrite D3. cbn [defined conds emitted tl].
  rewrite (pp_plain _ post) by (auto; reflexivity).
  cbn [defined conds emitted]. exists ds. reflexivity.
Qed.

(** Reading it again, with the macro defined, passes on only the
    lines outside the guard. *)
Lemma pp_guarded_again g pre body post lines defs em :
  guarded g pre body post lines ->
  In g defs ->
  pp_lines (mkPState defs [] em) lines
  = mkPState defs [] (rev post ++ rev pre ++ em).
Proof.
  intros [(l1 & l2 & l3 & -> & D1 & D2 & D3) Hpre Hpost Hbody] Hg.
  assert (Hp : forall ls, forallb (fun l => is_plain l && negb (is_code l)) ls = true ->
                          forallb is_plain ls = true).
  { intros ls H. rewrite forallb_forall in *. intros x Hx.
    specialize (H x Hx). now apply andb_true_iff in H. }
  rewrite pp_lines_app, (pp_plain _ pre) by (auto; reflexivity).
  rewrite !pp_lines_cons. cbn [defined conds emitted].
  unfold pp_line at 2. rewrite D1. cbn [defined conds emitted].
  apply mem_In in Hg. rewrite Hg. cbn [negb].
  unfold pp_line at 1. rewrite D2. cbn [active conds forallb andb defined emitted].
  rewrite pp_lines_app, (pp_skipped _ body) by (auto; reflexivity).
  rewrite pp_lines_cons. unfold pp_line at 1. rewrite D3. cbn [defined conds emitted tl].
  rewrite (pp_plain _ post) by (auto; reflexivity).
  reflexivity.
Qed.

Lemma code_lines_app l1 l2 :
  code_lines (l1 ++ l2) = code_lines l1 ++ code_lines l2.
Proof. apply filter_app. Qed.

Lemma code_lines_none ls :
  forallb (fun l => is_plain l && negb (is_code l)) ls = true ->
  code_lines ls = [].
Proof.
  induction ls as [|l ls IH]; intros H; [reflexivity|].
  simpl in H. apply andb_true_iff in H as [Hl H].
  apply andb_true_iff in Hl as [_ Hl]. apply negb_true_iff in Hl.
  unfold code_lines in *. simpl. rewrite Hl. auto.
Qed.

Lemma unit_code_guarded g pre body post lines :
  guarded g pre body post lines ->
  unit_code lines = code_lines (filter passes body).
Proof.
  intros [(l1 & l2 & l3 & -> & D1 & D2 & D3) Hpre Hpost Hbody].
  assert (Hout : forall ls, forallb (fun l => is_plain l && negb (is_code l)) ls = true ->
                            code_lines (filter passes ls) = []).
  { induction ls as [|l ls IH]; intros H; [reflexivity|].
    simpl in H. apply andb_true_iff in H as [Hl H].
    apply andb_true_iff in Hl as [Hl1 Hl2]. apply negb_true_iff in Hl2.
    simpl. unfold passes at 1. unfold is_plain in Hl1.
    destruct (directive_of l); [discriminate|].
    unfold code_lines in *. simpl. rewrite Hl2. auto. }
  assert (P1 : passes l1 = false) by (unfold passes; now rewrite D1).
  assert (P2 : passes l2 = false) by (unfold passes; now rewrite D2).
  assert (P3 : passes l3 = false) by (unfold passes; now rewrite D3).
  unfold unit_code. rewrite filter_app. cbn [filter]. rewrite P1, P2.
  rewrite filter_app. cbn [filter]. rewrite P3.
  rewrite !code_lines_app, (Hout pre), (Hout post) by assumption.
  simpl. now rewrite app_nil_r.
Qed.

(** A guarded unit included twice contributes its text once. *)
Lemma guarded_twice g pre body post lines defs :
  guarded g pre body post lines ->
  ~ In g defs ->
  code_lines (preprocess defs lines) = unit_code lines
  /\ code_lines (preprocess defs (lines ++ lines)) = unit_code lines.
Proof.
  intros G Hg. rewrite (unit_code_guarded _ _ _ _ _ G).
  unfold preprocess. rewrite pp_lines_app.
  destruct (pp_guarded_first _ _ _ _ _ defs [] G Hg) as [ds E].
  rewrite E. split.
  - cbn [emitted]. rewrite !rev_app_distr, !rev_involutive. simpl.
    rewrite !code_lines_app.
    rewrite (code_lines_none pre), (code_lines_none post) by apply G.
    now rewrite app_nil_r.
  - rewrite (pp_guarded_again _ _ _ _ _ _ _ G) by (apply in_or_app; right; now left).
    cbn [emitted]. rewrite !rev_app_distr, !rev_involutive. simpl.
    rewrite !code_lines_app.
    rewrite (code_lines_none pre), (code_lines_none post) by apply G.
    simpl. now rewrite !app_nil_r.
Qed.

End PreprocessorFacts.

Section HeaderFacts.

(** Both units have the guarded shape. *)
Lemma person_guarded :
  guarded "PERSON_H" (firstn 2 Person_h) (firstn 57 (skipn 4 Person_h)) [] Person_h.
Proof.
  split; try reflexivity.
  exists "#ifndef PERSON_H", "#define PERSON_H", "#endif // PERSON_H".
  repeat split; reflexivity.
Qed.

Lemma employee_guarded :
  guarded "EMPLOYEE_H" (firstn 2 Employee_h) (firstn 52 (skipn 4 Employee_h))
          [EmptyString] Employee_h.
Proof.
  split; try reflexivity.
  exists "#ifndef EMPLOYEE_H", "#define EMPLOYEE_H", "#endif // EMPLOYEE_H".
  repeat split; reflexivity.
Qed.

End HeaderFacts.

(** C10.  Every generated unit is wrapped in an include guard: its
    first two directives are [#ifndef G] and [#define G], where [G] is
    the upper-cased entity name followed by [_H]; the only directives
    after them are includes and the closing [#endif], which is the last
    line of text of the unit.  Hence, when [G] is not yet defined, the
    first inclusion passes the text of the unit on to the compiler and
    a second inclusion adds nothing to it. *)
Theorem include_guard_wraps_unit :
  forall h, In h generated_units ->
  exists g incs,
    guard_macro h = Some g
    /\ directives h = Ifndef g :: Define g :: map include_directive incs ++ [Endif]
    /\ directive_of (last_text h) = Some Endif
    /\ forall defs, ~ In g defs ->
         code_lines (preprocess defs h) = unit_code h
         /\ code_lines (preprocess defs (h ++ h)) = unit_code h.
Proof.
  intros h [<- | [<- | []]].
  - exists "PERSON_H",
      [(AngleInclude, "iostream"); (AngleInclude, "memory"); (AngleInclude, "string");
       (AngleInclude, "vector"); (AngleInclude, "map")].
    repeat split; try reflexivity;
      now apply (guarded_twice _ _ _ _ _ defs person_guarded).
  - exists "EMPLOYEE_H",
      [(AngleInclude, "iostream"); (AngleInclude, "memory"); (AngleInclude, "string");
       (AngleInclude, "vector"); (AngleInclude, "map"); (QuoteInclude, "Person.h")].
    repeat split; try reflexivity;
      now apply (guarded_twice _ _ _ _ _ defs employee_guarded).
Qed.

Lemma include_guard_wraps_unit_witness :
  exists g incs,
    guard_macro Person_h = Some g
    /\ directives Person_h = Ifndef g :: Define g :: map include_directive incs ++ [Endif]
    /\ directive_of (last_text Person_h) = Some Endif
    /\ forall defs, ~ In g defs ->
         code_lines (preprocess defs Person_h) = unit_code Person_h
         /\ code_lines (preprocess defs (Person_h ++ Person_h)) = unit_code Person_h.
Proof.
  apply (include_guard_wraps_unit Person_h). simpl. auto.
Defined.

(** C5.  The unit emitted for Person declares the default constructor
    twice (lines 33 and 34 of [Person.h]), where the specification asks
    for exactly one; the unit emitted for Employee declares it once. *)
Theorem person_unit_declares_default_ctor_twice :
  option_map (fun c => List.length (default_ctors c)) (parse_class Person_h) = Some 2
  /\ count_occ string_dec Person_h "    Person();" = 2
  /\ option_map (fun c => List.length (default_ctors c)) (parse_class Employee_h) = Some 1.
Proof. repeat split; reflexivity. Qed.

(** C6, as stated, fails on the unit of Person: its parameterized
    constructor has two parameters and is marked explicit. *)
Lemma person_ctor_explicit_with_two_params :
  exists c, parse_class Person_h = Some c /\ ~ ctor_contract c.
Proof.
  eexists. split; [reflexivity|].
  intros H. destruct H as (k & Hk & _ & Hex); [discriminate|].
  injection Hk as <-. destruct Hex as [Hex _].
  specialize (Hex eq_refl). discriminate.
Qed.

(** C6, amended.  Every parameterized constructor declared in the
    generated units takes exactly the required (non-defaulted)
    attributes of its entity, in declaration order, by value or by
    reference; nothing ties its explicit marker to the number of its
    parameters. *)
Theorem param_ctor_takes_required_fields :
  forall h c k,
    In h generated_units ->
    parse_class h = Some c ->
    In k (param_ctors c) ->
    map p_name (c_params k) = map f_name (required_fields c)
    /\ map (fun p => value_type (p_type p)) (c_params k) = map f_type (required_fields c).
Proof.
  intros h c k [<- | [<- | []]] Hc Hk;
    vm_compute in Hc; injection Hc as <-; vm_compute in Hk.
  - destruct Hk as [<- | []]. split; reflexivity.
  - destruct Hk.
Qed.

Lemma param_ctor_takes_required_fields_witness :
  map p_name [mkParam "std::string&" "name"; mkParam "int" "age"] = ["name"; "age"]
  /\ map (fun p => value_type (p_type p)) [mkParam "std::string&" "name"; mkParam "int" "age"]
     = ["std::string"; "int"].
Proof.
  apply (param_ctor_takes_required_fields Person_h
           (mkClass "Person" None
              [mkField "std::string" "name" None; mkField "int" "age" None]
              [mkCtor false []; mkCtor false [];
               mkCtor true [mkParam "std::string&" "name"; mkParam "int" "age"]]
              [mkDtor true])
           (mkCtor true [mkParam "std::string&" "name"; mkParam "int" "age"])).
  - simpl; auto.
  - reflexivity.
  - simpl; auto.
Defined.

(** C8, as stated, fails on the unit of Person: its upstream includes
    end with [vector], [map], which is not alphabetical order. *)
Lemma person_includes_not_sorted : ~ includes_contract Person_h.
Proof. intros (_ & H & _). discriminate H. Qed.

(** C8, amended.  In every generated unit the include list has no
    duplicate and consists of the upstream group, then the project
    group, then the entity-specific group; the upstream group is the
    fixed list iostream, memory, string, vector, map, in that order; the
    other two groups are in alphabetical order. *)
Theorem includes_grouped_without_duplicates :
  forall h, In h generated_units ->
    NoDup (include_names h)
    /\ include_names h = std_includes h ++ project_includes h ++ custom_includes h
    /\ std_includes h = ["iostream"; "memory"; "string"; "vector"; "map"]
    /\ sortedb (project_includes h) = true
    /\ sortedb (custom_includes h) = true.
Proof.
  intros h [<- | [<- | []]]; (split; [| repeat split; reflexivity]).
  - vm_compute. repeat constructor; simpl; intuition discriminate.
  - vm_compute. repeat constructor; simpl; intuition discriminate.
Qed.

Lemma includes_grouped_without_duplicates_witness :
    NoDup (include_names Employee_h)
    /\ include_names Employee_h
       = std_includes Employee_h ++ project_includes Employee_h ++ custom_includes Employee_h
    /\ std_includes Employee_h = ["iostream"; "memory"; "string"; "vector"; "map"]
    /\ sortedb (project_includes Employee_h) = true
    /\ sortedb (custom_includes Employee_h) = true.
Proof.
  apply (includes_grouped_without_duplicates Employee_h). simpl. auto.
Defined.

Section DestructorFacts.

Lemma ancestors_in_defined l n a :
  well_formed_in l = true ->
  In a (ancestors_in l n) ->
  In a (map cname l).
Proof.
  revert n. induction l as [|c before IH]; intros n Hwf Ha; [destruct Ha|].
  simpl in Hwf. apply andb_true_iff in Hwf as [Hwf Hrest].
  apply andb_true_iff in Hwf as [_ Hbase].
  simpl in Ha. destruct (String.eqb (cname c) n).
  - destruct (cbase c) as [b|]; [|destruct Ha].
    apply mem_In in Hbase. destruct Ha as [<- | Ha].
    + now right.
    + right. now apply (IH b).
  - right. now apply (IH n).
Qed.

Lemma virtual_in_inherited l n a :
  well_formed_in l = true ->
  In a (ancestors_in l n) ->
  virtual_in l a = true ->
  virtual_in l n = true.
Proof.
  revert n. induction l as [|c before IH]; intros n Hwf Ha Hv; [destruct Ha|].
  pose proof (ancestors_in_defined _ _ _ Hwf Ha) as Hdef.
  simpl in Hwf. apply andb_true_iff in Hwf as [Hwf Hrest].
  apply andb_true_iff in Hwf as [Hfresh Hbase].
  apply negb_true_iff, mem_false_notin in Hfresh.
  simpl in Ha, Hv |- *.
  destruct (String.eqb (cname c) a) eqn:Eca.
  - (* the class just defined cannot be one of the earlier ones *)
    apply String.eqb_eq in Eca. subst a.
    destruct (String.eqb (cname c) n) eqn:Ecn; [assumption|].
    exfalso. apply Hfresh. now apply (ancestors_in_defined before n).
  - destruct (String.eqb (cname c) n).
    + destruct (cbase c) as [b|]; [|destruct Ha].
      apply orb_true_iff. right.
      destruct Ha as [<- | Ha]; [assumption|]. now apply (IH b).
    + now apply (IH n).
Qed.

End DestructorFacts.

(** C7.  In the generated units destructor virtuality goes down the
    inheritance chain: for every class of the units and every ancestor
    of it, the destructor of the ancestor is virtual and so is the
    destructor of the class, although the class does not declare it
    virtual and has no children.  The one class with an ancestor is
    Employee, whose [~Employee();] is virtual through
    [virtual ~Person();]. *)
Theorem destructor_virtual_down_the_chain :
  forall c a,
    In c header_classes ->
    In a (ancestors header_classes (cname c)) ->
    has_virtual_dtor header_classes a = true
    /\ has_virtual_dtor header_classes (cname c) = true
    /\ declared_virtual c = false
    /\ has_children header_classes (cname c) = false.
Proof.
  intros c a Hc Ha. vm_compute in Hc.
  destruct Hc as [<- | [<- | []]]; vm_compute in Ha.
  - destruct Ha.
  - destruct Ha as [<- | []]. repeat split; reflexivity.
Qed.

Lemma destructor_virtual_down_the_chain_witness :
  has_virtual_dtor header_classes "Person" = true
  /\ has_virtual_dtor header_classes "Employee" = true
  /\ declared_virtual
       (mkClass "Employee" (Some "Person")
          [mkField "std::string" "employeeId" None;
           mkField "double" "salary" (Some "0.0")]
          [mkCtor false []] [mkDtor false]) = false
  /\ has_children header_classes "Employee" = false.
Proof.
  apply (destructor_virtual_down_the_chain
           (mkClass "Employee" (Some "Person")
              [mkField "std::string" "employeeId" None;
               mkField "double" "salary" (Some "0.0")]
              [mkCtor false []] [mkDtor false])
           "Person").
  - vm_compute. auto.
  - vm_compute. auto.
Defined.

Example employee_dtor_not_marked :
  option_map declared_virtual (parse_class Employee_h) = Some false
  /\ has_children header_classes "Employee" = false
  /\ has_children header_classes "Person" = true.
Proof. repeat split; reflexivity. Qed.


Lemma bind_ok {A B} (m : Result A) (k : A -> Result B) b :
  bind m k = Ok b -> exists a, m = Ok a /\ k a = Ok b.
Proof. destruct m as [a|f]; simpl; [eauto | discriminate]. Qed.

Lemma bind_err {A B} (m : Result A) (k : A -> Result B) f :
  bind m k = Err f -> m = Err f \/ exists a, m = Ok a /\ k a = Err f.
Proof. destruct m as [a|f']; simpl; [eauto | intros [= ->]; now left]. Qed.

Section MonadFacts.
Context {A B : Type}.

Lemma mapM_ok (f : A -> Result B) l ys :
  mapM f l = Ok ys -> Forall2 (fun x y => f x = Ok y) l ys.
Proof.
  revert ys. induction l as [|x l IH]; simpl; intros ys H.
  - injection H as <-. constructor.
  - apply bind_ok in H as (y & Hy & H).
    apply bind_ok in H as (ys' & Hys & H). injection H as <-.
    constructor; auto.
Qed.

Lemma mapM_all_ok (f : A -> Result B) l :
  (forall x, In x l -> exists y, f x = Ok y) ->
  exists ys, mapM f l = Ok ys.
Proof.
  induction l as [|x l IH]; intros H; simpl; [eauto|].
  destruct (H x (or_introl eq_refl)) as [y ->].
  destruct IH as [ys ->]; [intros; apply H; now right|].
  simpl. eauto.
Qed.

Lemma mapM_err (f : A -> Result B) (P : Failure -> Prop) l fl :
  (forall x e, In x l -> f x = Err e -> P e) ->
  mapM f l = Err fl -> P fl.
Proof.
  induction l as [|x l IH]; simpl; intros HP H; [discriminate|].
  apply bind_err in H as [H | (y & Hy & H)].
  - apply (HP x); auto.
  - apply bind_err in H as [H | (ys & Hys & H)]; [|discriminate].
    apply IH; auto. intros x' e Hin. apply HP. now right.
Qed.

Lemma mapM_fails (f : A -> Result B) l x e :
  In x l -> f x = Err e -> exists fl, mapM f l = Err fl.
Proof.
  induction l as [|x' l IH]; intros Hin Hx; [destruct Hin|].
  simpl. destruct (f x') as [y|e'] eqn:E; simpl; [|eauto].
  destruct Hin as [-> | Hin]; [congruence|].
  destruct (IH Hin Hx) as [fl ->]. simpl. eauto.
Qed.

Lemma foldM_app (f : B -> A -> Result B) l1 l2 acc :
  foldM f (l1 ++ l2) acc = bind (foldM f l1 acc) (foldM f l2).
Proof.
  revert acc. induction l1 as [|x l1 IH]; intros acc; simpl; [reflexivity|].
  destruct (f acc x); simpl; auto.
Qed.

End MonadFacts.

Section SchemaFacts.
Variable s : Schema.

Lemma entity_found n e : entity s n = Some e -> In e s /\ e_name e = n.
Proof.
  unfold entity. intros H. apply find_some in H as [Hin He].
  apply String.eqb_eq in He. auto.
Qed.

Lemma entity_canonical n e : entity s n = Some e -> entity s (e_name e) = Some e.
Proof. intros H. destruct (entity_found _ _ H) as [_ ->]. exact H. Qed.

Lemma entity_of_member e :
  namesUnique s -> In e s -> entity s (e_name e) = Some e.
Proof.
  unfold namesUnique, entity. induction s as [|x l IH]; intros Hnd Hin; [destruct Hin|].
  simpl in *. inversion Hnd as [|? ? Hx Hl]; subst.
  destruct Hin as [-> | Hin].
  - now rewrite String.eqb_refl.
  - destruct (String.eqb (e_name x) (e_name e)) eqn:E; [|auto].
    apply String.eqb_eq in E. exfalso. apply Hx. rewrite E. now apply in_map.
Qed.

Lemma parentStep_functional a b b' :
  parentStep s a b -> parentStep s a b' -> b = b'.
Proof. intros (e & He & Hp) (e' & He' & Hp'). congruence. Qed.

Lemma ancestorOf_step a b c :
  ancestorOf s a b -> parentStep s b c -> ancestorOf s a c.
Proof.
  unfold ancestorOf. intros H Hs.
  apply clos_trans_t1n. apply t_trans with b.
  - now apply clos_t1n_trans.
  - now apply t_step.
Qed.

(** Fuel: a walk never visits more names than the schema has. *)
Lemma walk_never_exhausted fuel visited e :
  NoDup visited ->
  incl visited (map e_name s) ->
  In e s ->
  List.length s < fuel + List.length visited ->
  walkToRoot s fuel visited e <> None.
Proof.
  revert visited e. induction fuel as [|fuel IH]; intros visited e Hnd Hincl Hin Hlen.
  - exfalso. apply NoDup_incl_length in Hincl; [|assumption].
    rewrite length_map in Hincl. simpl in Hlen. lia.
  - simpl. destruct (Text.mem (e_name e) visited) eqn:Hm; [discriminate|].
    unfold parentOf. destruct (e_parent e) as [pn|]; [|discriminate].
    destruct (entity s pn) as [p|] eqn:Hp; [|discriminate].
    assert (Hrec : walkToRoot s fuel (e_name e :: visited) p <> None).
    { apply IH.
      - constructor; [now apply mem_false_notin | assumption].
      - intros x [<- | Hx]; [now apply in_map | now apply Hincl].
      - now apply entity_found in Hp.
      - simpl. lia. }
    destruct (walkToRoot s fuel (e_name e :: visited) p) as [[up|f]|];
      [discriminate | discriminate | contradiction].
Qed.

(** The bound [ancestorChain] gives its walk is never hit, on any schema. *)
Lemma walk_from_member_total e :
  In e s -> walkToRoot s (S (List.length s)) [] e <> None.
Proof.
  intros Hin. apply walk_never_exhausted; auto.
  - constructor.
  - intros x [].
  - simpl. lia.
Qed.

(** With resolvable parents a walk ends at a root or meets a cycle. *)
Lemma walk_outcome fuel visited e r :
  parentsResolvable s ->
  In e s ->
  walkToRoot s fuel visited e = Some r ->
  (exists up, r = Ok up)
  \/ (exists f, r = Err f /\ errorKind f = CyclicInheritanceError).
Proof.
  intros Hres. revert visited e r.
  induction fuel as [|fuel IH]; intros visited e r Hin H; [discriminate|].
  simpl in H. destruct (Text.mem (e_name e) visited).
  - injection H as <-. right. eauto.
  - unfold parentOf in H. destruct (e_parent e) as [pn|] eqn:Hpar.
    + destruct (entity s pn) as [p|] eqn:Hp.
      * destruct (walkToRoot s fuel (e_name e :: visited) p) as [[up|f]|] eqn:Hw;
          try discriminate.
        -- injection H as <-. left. eauto.
        -- injection H as <-.
           apply entity_found in Hp as [Hp _].
           destruct (IH _ _ _ Hp Hw) as [[up ?] | ?]; [discriminate | now right].
      * exfalso. now apply (Hres e pn).
    + injection H as <-. left. eauto.
Qed.

(** A walk that reports a cycle has found one. *)
Lemma walk_cycle_sound fuel visited e f :
  entity s (e_name e) = Some e ->
  (forall v, In v visited -> ancestorOf s v (e_name e)) ->
  walkToRoot s fuel visited e = Some (Err f) ->
  errorKind f = CyclicInheritanceError ->
  cyclic s.
Proof.
  revert visited e. induction fuel as [|fuel IH]; intros visited e Hcan Hinv H Hk;
    [discriminate|].
  simpl in H. destruct (Text.mem (e_name e) visited) eqn:Hm.
  - exists (e_name e). apply Hinv. now apply mem_In.
  - unfold parentOf in H. destruct (e_parent e) as [pn|] eqn:Hpar; [|discriminate].
    destruct (entity s pn) as [p|] eqn:Hp.
    + destruct (walkToRoot s fuel (e_name e :: visited) p) as [[up|f']|] eqn:Hw;
        try discriminate.
      injection H as ->.
      destruct (entity_found _ _ Hp) as [_ Hn].
      assert (Hstep : parentStep s (e_name e) (e_name p)).
      { exists e. rewrite Hn. auto. }
      apply (IH _ _ (entity_canonical _ _ Hp)) in Hw; auto.
      intros v [<- | Hv].
      * now apply t1n_step.
      * apply ancestorOf_step with (e_name e); auto.
    + injection H as <-. discriminate.
Qed.

(** A walk that ends well has reached a root. *)
Lemma walk_reaches_root fuel visited e up :
  entity s (e_name e) = Some e ->
  walkToRoot s fuel visited e = Some (Ok up) ->
  exists r, clos_refl_trans string (parentStep s) (e_name e) r
            /\ forall b, ~ parentStep s r b.
Proof.
  revert visited e up. induction fuel as [|fuel IH]; intros visited e up Hcan H;
    [discriminate|].
  simpl in H. destruct (Text.mem (e_name e) visited); [discriminate|].
  unfold parentOf in H. destruct (e_parent e) as [pn|] eqn:Hpar.
  - destruct (entity s pn) as [p|] eqn:Hp; [|discriminate].
    destruct (walkToRoot s fuel (e_name e :: visited) p) as [[up'|f']|] eqn:Hw;
      try discriminate.
    destruct (IH _ _ _ (entity_canonical _ _ Hp) Hw) as (r & Hr & Hroot).
    exists r. split; [|assumption].
    apply rt_trans with (e_name p); [|assumption].
    apply rt_step. exists e. destruct (entity_found _ _ Hp) as [_ ->]. auto.
  - exists (e_name e). split; [apply rt_refl|].
    intros b (e' & He' & Hb). congruence.
Qed.

(** On a cycle every entity reached leads back into the cycle. *)
Lemma cycle_closed n r :
  ancestorOf s n n ->
  clos_refl_trans string (parentStep s) n r ->
  ancestorOf s r n.
Proof.
  intros Hc Hr. apply clos_rt_rtn1 in Hr.
  induction Hr as [|r' r Hstep Hr IH]; [assumption|].
  unfold ancestorOf in IH. inversion IH as [m Hm | m ? Hm Hrest]; subst.
  - rewrite (parentStep_functional _ _ _ Hstep Hm). assumption.
  - rewrite (parentStep_functional _ _ _ Hstep Hm). assumption.
Qed.

Lemma ancestorOf_first a b : ancestorOf s a b -> exists c, parentStep s a c.
Proof. intros H. inversion H; eauto. Qed.

Lemma chain_of_cycle_member n e :
  parentsResolvable s ->
  ancestorOf s n n ->
  entity s n = Some e ->
  exists f, ancestorChain s e = Err f /\ errorKind f = CyclicInheritanceError.
Proof.
  intros Hres Hc He. unfold ancestorChain.
  destruct (entity_found _ _ He) as [Hin Hn].
  destruct (walkToRoot s (S (List.length s)) [] e) as [r|] eqn:Hw.
  - destruct (walk_outcome _ _ _ _ Hres Hin Hw) as [[up ->] | (f & -> & Hk)]; [|eauto].
    exfalso. apply walk_reaches_root in Hw as (r & Hr & Hroot).
    + rewrite Hn in Hr.
      destruct (ancestorOf_first _ _ (cycle_closed _ _ Hc Hr)) as [c Hstep].
      now apply (Hroot c).
    + now apply entity_canonical in He.
  - eauto.
Qed.

Lemma chain_outcome e :
  parentsResolvable s ->
  In e s ->
  (exists chain, ancestorChain s e = Ok chain)
  \/ (exists f, ancestorChain s e = Err f /\ errorKind f = CyclicInheritanceError).
Proof.
  intros Hres Hin. unfold ancestorChain.
  destruct (walkToRoot s (S (List.length s)) [] e) as [r|] eqn:Hw.
  - destruct (walk_outcome _ _ _ _ Hres Hin Hw) as [[up ->] | (f & -> & Hk)]; eauto.
  - right. eauto.
Qed.

Lemma chain_of_acyclic e :
  namesUnique s ->
  parentsResolvable s ->
  acyclic s ->
  In e s ->
  exists chain, ancestorChain s e = Ok chain.
Proof.
  intros Hu Hres Hac Hin.
  destruct (chain_outcome e Hres Hin) as [? | (f & Hf & Hk)]; [assumption|].
  exfalso. unfold ancestorChain in Hf.
  destruct (walkToRoot s (S (List.length s)) [] e) as [[up|f']|] eqn:Hw.
  - discriminate.
  - injection Hf as ->.
    destruct (walk_cycle_sound _ _ _ _ (entity_of_member _ Hu Hin)
                (fun v (H : In v []) => match H with end) Hw Hk) as [n Hn].
    now apply (Hac n).
  - apply walk_never_exhausted in Hw; auto.
    + constructor.
    + intros x [].
    + simpl. lia.
Qed.

End SchemaFacts.


Section ListFacts.
Context {A B C : Type}.

Lemma Forall2_compose (R : A -> B -> Prop) (S : B -> C -> Prop) l1 l2 l3 :
  Forall2 R l1 l2 -> Forall2 S l2 l3 ->
  Forall2 (fun x z => exists y, R x y /\ S y z) l1 l3.
Proof.
  intros H. revert l3. induction H; intros l3 H'; inversion H'; subst;
    constructor; eauto.
Qed.

Lemma Forall2_in_r (R : A -> B -> Prop) l1 l2 y :
  Forall2 R l1 l2 -> In y l2 -> exists x, In x l1 /\ R x y.
Proof.
  induction 1 as [|x y' l1 l2 Hxy _ IH]; intros Hin; [destruct Hin|].
  destruct Hin as [<- | Hin].
  - exists x. split; [now left | assumption].
  - destruct (IH Hin) as (x' & Hx' & HR). exists x'. split; [now right | assumption].
Qed.

Lemma Forall2_in_l (R : A -> B -> Prop) l1 l2 x :
  Forall2 R l1 l2 -> In x l1 -> exists y, In y l2 /\ R x y.
Proof.
  induction 1 as [|x' y l1 l2 Hxy _ IH]; intros Hin; [destruct Hin|].
  destruct Hin as [<- | Hin].
  - exists y. split; [now left | assumption].
  - destruct (IH Hin) as (y' & Hy' & HR). exists y'. split; [now right | assumption].
Qed.

Lemma Forall2_weaken (R R' : A -> B -> Prop) l1 l2 :
  (forall x y, R x y -> R' x y) -> Forall2 R l1 l2 -> Forall2 R' l1 l2.
Proof. intros H; induction 1; constructor; auto. Qed.

Lemma Forall2_map (R : A -> B -> Prop) (f : A -> C) (g : B -> C) l1 l2 :
  (forall x y, R x y -> g y = f x) -> Forall2 R l1 l2 -> map g l2 = map f l1.
Proof. intros H; induction 1; simpl; [reflexivity|]. f_equal; auto. Qed.

End ListFacts.

Lemma foldM_err {A B} (f : B -> A -> Result B) (P : Failure -> Prop) l acc e :
  (forall acc' x e', f acc' x = Err e' -> P e') ->
  foldM f l acc = Err e -> P e.
Proof.
  intros HP. revert acc. induction l as [|x l IH]; intros acc H; [discriminate|].
  simpl in H. apply bind_err in H as [H | (acc' & _ & H)]; eauto.
Qed.

Section ResolveFacts.
Variable s : Schema.

Lemma resolve_bindings m :
  resolve s = Ok m -> Forall2 (resolvedFrom s) s m.
Proof.
  unfold resolve. intros H.
  apply bind_ok in H as (chains & Hc & H).
  apply bind_ok in H as (merged & Hm & H).
  apply mapM_ok in Hc, Hm, H.
  pose proof (Forall2_compose _ _ _ _ _ (Forall2_compose _ _ _ _ _ Hc Hm) H) as HF.
  unfold allEntities in HF. revert HF. apply Forall2_weaken.
  intros e p (eca & (ec & Hec & Heca) & Hp).
  unfold chainOf in Hec. apply bind_ok in Hec as (chain & Hchain & [= <-]).
  unfold attributesOf in Heca. simpl in Heca.
  apply bind_ok in Heca as (attrs & Hattrs & [= <-]).
  unfold closureOf in Hp.
  apply bind_ok in Hp as (methods & Hmethods & [= <-]).
  exists chain, attrs, methods. auto.
Qed.

Lemma resolve_names m :
  resolve s = Ok m ->
  map fst m = map e_name s /\ map (fun p => r_entity (snd p)) m = s.
Proof.
  intros H. apply resolve_bindings in H. split.
  - revert H. apply Forall2_map.
    intros e p (? & ? & ? & _ & _ & _ & ->). reflexivity.
  - transitivity (map (fun e : Entity => e) s); [|apply map_id].
    revert H. apply Forall2_map.
    intros e p (? & ? & ? & _ & _ & _ & ->). reflexivity.
Qed.

Lemma chains_ok :
  namesUnique s -> parentsResolvable s -> acyclic s ->
  exists chains, mapM (chainOf s) s = Ok chains.
Proof.
  intros Hu Hres Hac. apply mapM_all_ok. intros e Hin.
  destruct (chain_of_acyclic s e Hu Hres Hac Hin) as [chain Hc].
  unfold chainOf. rewrite Hc. simpl. eauto.
Qed.

Lemma applyAttribute_err owner merged a e :
  applyAttribute owner merged a = Err e -> errorKind e = AttributeTypeConflictError.
Proof.
  induction merged as [|b rest IH]; simpl; [discriminate|].
  destruct (String.eqb (a_name b) (a_name a)).
  - destruct (SemType_eqb (a_type b) (a_type a)); [discriminate|].
    now intros [= <-].
  - intros H. apply bind_err in H as [H | (r & _ & H)]; [auto | discriminate].
Qed.

Lemma mergeAttributes_err closure e :
  mergeAttributes closure = Err e -> errorKind e = AttributeTypeConflictError.
Proof.
  unfold mergeAttributes.
  apply (foldM_err _ (fun e => errorKind e = AttributeTypeConflictError)).
  intros acc x e'. unfold applyEntityAttributes.
  apply (foldM_err _ (fun e => errorKind e = AttributeTypeConflictError)).
  intros acc' a e''. apply applyAttribute_err.
Qed.

Lemma applyMethod_err owner merged m e :
  applyMethod owner merged m = Err e -> errorKind e = InvalidOverrideError.
Proof.
  induction merged as [|b rest IH]; simpl.
  - destruct (is_override m); [now intros [= <-] | discriminate].
  - destruct (same_signature b m).
    + destruct (is_virtual b); [discriminate|].
      destruct (is_override m); [now intros [= <-] | discriminate].
    + intros H. apply bind_err in H as [H | (r & _ & H)]; [auto | discriminate].
Qed.

Lemma mergeMethods_err ent closure e :
  mergeMethods s ent closure = Err e ->
  errorKind e = InvalidOverrideError \/ errorKind e = UnimplementedAbstractMethodError.
Proof.
  unfold mergeMethods. intros H. apply bind_err in H as [H | (merged & _ & H)].
  - left. revert H.
    apply (foldM_err _ (fun e => errorKind e = InvalidOverrideError)).
    intros acc x e'. unfold applyEntityMethods.
    apply (foldM_err _ (fun e => errorKind e = InvalidOverrideError)).
    intros acc' a e''. apply applyMethod_err.
  - right.
    destruct (negb (e_abstract ent) && (childCount s ent =? 0)%nat && existsb is_pure merged);
      [now injection H as <- | discriminate].
Qed.

(** The failures of [resolve] on a schema whose walks all end at a root. *)
Lemma resolve_err_kinds chains f :
  mapM (chainOf s) s = Ok chains ->
  resolve s = Err f ->
  errorKind f = AttributeTypeConflictError
  \/ errorKind f = InvalidOverrideError
  \/ errorKind f = UnimplementedAbstractMethodError.
Proof.
  intros Hc H. unfold resolve, allEntities in H. rewrite Hc in H. simpl in H.
  apply bind_err in H as [H | (merged & _ & H)].
  - left. revert H.
    apply (mapM_err _ (fun e => errorKind e = AttributeTypeConflictError)).
    intros [e chain] e' _ He.
    unfold attributesOf in He. apply bind_err in He as [He | (? & _ & ?)];
      [|discriminate].
    now apply mergeAttributes_err in He.
  - right. revert H.
    apply (mapM_err _ (fun e => errorKind e = InvalidOverrideError
                                \/ errorKind e = UnimplementedAbstractMethodError)).
    intros [[e chain] attrs] e' _ He.
    unfold closureOf in He. apply bind_err in He as [He | (? & _ & ?)];
      [|discriminate].
    now apply mergeMethods_err in He.
Qed.

Lemma resolve_ok_of_merges :
  namesUnique s -> parentsResolvable s -> acyclic s ->
  mergesSucceed s ->
  exists m, resolve s = Ok m.
Proof.
  intros Hu Hres Hac Hms.
  destruct (chains_ok Hu Hres Hac) as [chains Hc].
  unfold resolve, allEntities. rewrite Hc. simpl.
  pose proof (mapM_ok _ _ _ Hc) as HF.
  assert (Hattrs : exists merged, mapM attributesOf chains = Ok merged).
  { apply mapM_all_ok. intros [e chain] Hin.
    destruct (Forall2_in_r _ _ _ _ HF Hin) as (e' & He' & Hch).
    unfold chainOf in Hch. apply bind_ok in Hch as (chain' & Hchain & [= <- <-]).
    destruct (Hms _ _ He' Hchain) as [[attrs Ha] _].
    unfold attributesOf. simpl. rewrite Ha. simpl. eauto. }
  destruct Hattrs as [merged Hm]. rewrite Hm. simpl.
  pose proof (mapM_ok _ _ _ Hm) as HF'.
  apply mapM_all_ok. intros [[e chain] attrs] Hin.
  destruct (Forall2_in_r _ _ _ _ HF' Hin) as ([e1 chain1] & Hin1 & Ha).
  unfold attributesOf in Ha. simpl in Ha.
  apply bind_ok in Ha as (attrs' & _ & [= <- <- <-]).
  destruct (Forall2_in_r _ _ _ _ HF Hin1) as (e' & He' & Hch).
  unfold chainOf in Hch. apply bind_ok in Hch as (chain' & Hchain & [= <- <-]).
  destruct (Hms _ _ He' Hchain) as [_ [methods Hmeth]].
  unfold closureOf. rewrite Hmeth. simpl. eauto.
Qed.

(** A schema with a cycle fails in the walks. *)
Lemma resolve_cyclic :
  parentsResolvable s -> cyclic s ->
  exists f, resolve s = Err f /\ errorKind f = CyclicInheritanceError.
Proof.
  intros Hres [n Hn].
  destruct (ancestorOf_first _ _ _ Hn) as (c & e0 & He0 & _).
  destruct (chain_of_cycle_member _ _ _ Hres Hn He0) as (f0 & Hf0 & _).
  destruct (entity_found _ _ _ He0) as [Hin _].
  assert (Hch : chainOf s e0 = Err f0) by (unfold chainOf; now rewrite Hf0).
  destruct (mapM_fails _ _ _ _ Hin Hch) as [fl Hfl].
  exists fl. split.
  - unfold resolve, allEntities. now rewrite Hfl.
  - revert Hfl. apply (mapM_err _ (fun e => errorKind e = CyclicInheritanceError)).
    intros e e' Hine He.
    unfold chainOf in He. apply bind_err in He as [He | (? & _ & ?)]; [|discriminate].
    destruct (chain_outcome _ e Hres Hine) as [[chain Hc] | (f & Hf & Hk)]; congruence.
Qed.

End ResolveFacts.

Section AttributeFacts.

Lemma SemType_eqb_eq a b : SemType_eqb a b = true <-> a = b.
Proof.
  revert b. induction a as [x| |x|a IH]; intros [y| |y|b]; simpl;
    split; intros H; try discriminate; try reflexivity.
  - apply String.eqb_eq in H. now subst.
  - injection H as ->. apply String.eqb_refl.
  - apply String.eqb_eq in H. now subst.
  - injection H as ->. apply String.eqb_refl.
  - apply IH in H. now subst.
  - injection H as ->. now apply IH.
Qed.

Lemma applyAttribute_names o m a m' :
  applyAttribute o m a = Ok m' ->
  (In (a_name a) (map a_name m) /\ map a_name m' = map a_name m)
  \/ (~ In (a_name a) (map a_name m) /\ map a_name m' = map a_name m ++ [a_name a]).
Proof.
  revert m'. induction m as [|b rest IH]; simpl; intros m' H.
  - injection H as <-. right. auto.
  - destruct (String.eqb (a_name b) (a_name a)) eqn:E.
    + apply String.eqb_eq in E.
      destruct (SemType_eqb (a_type b) (a_type a)); [|discriminate].
      injection H as <-. left. simpl. rewrite E. auto.
    + apply String.eqb_neq in E.
      apply bind_ok in H as (rest' & Hr & [= <-]).
      destruct (IH _ Hr) as [[Hin Hn] | [Hnin Hn]]; simpl; rewrite Hn.
      * left. auto.
      * right. split; [intros [? | ?]; contradiction | reflexivity].
Qed.

Lemma applyAttribute_nodup o m a m' :
  NoDup (map a_name m) ->
  applyAttribute o m a = Ok m' ->
  NoDup (map a_name m').
Proof.
  intros Hnd H. destruct (applyAttribute_names _ _ _ _ H) as [[_ ->] | [Hnin ->]];
    [assumption|].
  apply NoDup_app; [assumption | repeat constructor; intros [] |].
  intros x Hx [<- | []]. contradiction.
Qed.

Lemma applyAttribute_in o m a m' :
  applyAttribute o m a = Ok m' -> In a m'.
Proof.
  revert m'. induction m as [|b rest IH]; simpl; intros m' H.
  - injection H as <-. now left.
  - destruct (String.eqb (a_name b) (a_name a)).
    + destruct (SemType_eqb (a_type b) (a_type a)); [|discriminate].
      injection H as <-. now left.
    + apply bind_ok in H as (rest' & Hr & [= <-]). right. eauto.
Qed.

Lemma applyAttribute_keeps o m a m' x :
  applyAttribute o m a = Ok m' ->
  In x m -> a_name x <> a_name a -> In x m'.
Proof.
  revert m'. induction m as [|b rest IH]; simpl; intros m' H Hx Hne; [destruct Hx|].
  destruct (String.eqb (a_name b) (a_name a)) eqn:E.
  - apply String.eqb_eq in E.
    destruct (SemType_eqb (a_type b) (a_type a)); [|discriminate].
    injection H as <-. destruct Hx as [-> | Hx]; [contradiction | now right].
  - apply bind_ok in H as (rest' & Hr & [= <-]).
    destruct Hx as [-> | Hx]; [now left | right; eauto].
Qed.

Lemma applyAttribute_bound o m a m' n t :
  applyAttribute o m a = Ok m' ->
  bound n t m -> bound n t m'.
Proof.
  revert m'. induction m as [|b rest IH]; simpl; intros m' H (y & Hy & Hn & Ht);
    [destruct Hy|].
  destruct (String.eqb (a_name b) (a_name a)) eqn:E.
  - apply String.eqb_eq in E.
    destruct (SemType_eqb (a_type b) (a_type a)) eqn:T; [|discriminate].
    apply SemType_eqb_eq in T.
    injection H as <-. destruct Hy as [-> | Hy].
    + exists a. split; [now left|]. split; congruence.
    + exists y. split; [now right | auto].
  - apply bind_ok in H as (rest' & Hr & [= <-]).
    destruct Hy as [-> | Hy].
    + exists y. split; [now left | auto].
    + destruct (IH _ Hr) as (y' & Hy' & ? & ?); [exists y; auto|].
      exists y'. split; [now right | auto].
Qed.

Lemma foldM_invariant {A B} (f : B -> A -> Result B) (I : B -> Prop) l acc r :
  (forall acc' x acc'', f acc' x = Ok acc'' -> I acc' -> I acc'') ->
  foldM f l acc = Ok r -> I acc -> I r.
Proof.
  intros Hstep. revert acc. induction l as [|x l IH]; simpl; intros acc H HI.
  - now injection H as <-.
  - apply bind_ok in H as (acc' & Hx & H). eauto.
Qed.

Lemma applyEntity_nodup m e m' :
  applyEntityAttributes m e = Ok m' ->
  NoDup (map a_name m) -> NoDup (map a_name m').
Proof.
  unfold applyEntityAttributes.
  apply (foldM_invariant _ (fun m => NoDup (map a_name m))).
  intros acc x acc' H Hnd. eapply applyAttribute_nodup; eauto.
Qed.

Lemma applyEntity_bound m e m' n t :
  applyEntityAttributes m e = Ok m' ->
  bound n t m -> bound n t m'.
Proof.
  unfold applyEntityAttributes.
  apply (foldM_invariant _ (bound n t)).
  intros acc x acc' H Hb. eapply applyAttribute_bound; eauto.
Qed.

Lemma applyEntity_binds_own m e m' y :
  applyEntityAttributes m e = Ok m' ->
  In y (e_attributes e) ->
  bound (a_name y) (a_type y) m'.
Proof.
  unfold applyEntityAttributes. generalize (e_name e) as o.
  intros o. revert m. induction (e_attributes e) as [|a rest IH]; intros m H Hy;
    [destruct Hy|].
  simpl in H. apply bind_ok in H as (m1 & Ha & H).
  destruct Hy as [-> | Hy]; [|eauto].
  refine (foldM_invariant _ (bound (a_name y) (a_type y)) _ _ _ _ H _).
  - intros acc x acc' Hx Hb. eapply applyAttribute_bound; eauto.
  - exists y. split; [eapply applyAttribute_in; eauto | auto].
Qed.

Lemma applyAttributes_keep o rest m m' a :
  foldM (applyAttribute o) rest m = Ok m' ->
  In a m ->
  ~ In (a_name a) (map a_name rest) ->
  In a m'.
Proof.
  revert m. induction rest as [|z rest IH]; simpl; intros m H Ha Hfresh.
  - now injection H as <-.
  - apply bind_ok in H as (m2 & Hz & H).
    apply (IH m2); auto.
    eapply applyAttribute_keeps; eauto.
Qed.

Lemma applyEntity_keeps_own m e m' a :
  applyEntityAttributes m e = Ok m' ->
  NoDup (map a_name (e_attributes e)) ->
  In a (e_attributes e) ->
  In a m'.
Proof.
  unfold applyEntityAttributes. generalize (e_name e) as o.
  intros o. revert m. induction (e_attributes e) as [|x rest IH]; intros m H Hnd Ha;
    [destruct Ha|].
  simpl in H, Hnd. apply bind_ok in H as (m1 & Hx & H).
  inversion Hnd as [|? ? Hfresh Hnd']; subst.
  destruct Ha as [-> | Ha]; [|eauto].
  apply applyAttribute_in in Hx.
  eapply applyAttributes_keep; eauto.
Qed.

Lemma mergeAttributes_nodup closure attrs :
  mergeAttributes closure = Ok attrs -> NoDup (map a_name attrs).
Proof.
  unfold mergeAttributes. intros H.
  apply (foldM_invariant _ (fun m => NoDup (map a_name m)) _ _ _
           (fun acc x acc' Hx => applyEntity_nodup acc x acc' Hx) H).
  constructor.
Qed.

Lemma mergeAttributes_binds closure attrs ent y :
  mergeAttributes closure = Ok attrs ->
  In ent closure -> In y (e_attributes ent) ->
  bound (a_name y) (a_type y) attrs.
Proof.
  unfold mergeAttributes. generalize (@nil Attribute) as m.
  induction closure as [|x rest IH]; intros m H Hent Hy; [destruct Hent|].
  simpl in H. apply bind_ok in H as (m1 & Hx & H).
  destruct Hent as [-> | Hent]; [|eauto].
  refine (foldM_invariant _ (bound (a_name y) (a_type y)) _ _ _ _ H _).
  - intros acc z acc' Hz Hb. eapply applyEntity_bound; eauto.
  - eapply applyEntity_binds_own; eauto.
Qed.

Lemma mergeAttributes_own chain e attrs a :
  mergeAttributes (chain ++ [e]) = Ok attrs ->
  NoDup (map a_name (e_attributes e)) ->
  In a (e_attributes e) ->
  In a attrs.
Proof.
  unfold mergeAttributes. rewrite foldM_app. intros H Hnd Ha.
  apply bind_ok in H as (m0 & _ & H). simpl in H.
  apply bind_ok in H as (m1 & H & [= <-]).
  eapply applyEntity_keeps_own; eauto.
Qed.

Lemma filter_none {A} (p : A -> bool) l :
  (forall x, In x l -> p x = false) -> filter p l = [].
Proof.
  induction l as [|x l IH]; intros H; [reflexivity|].
  simpl. rewrite (H x) by now left. apply IH. intros y Hy. apply H. now right.
Qed.

Lemma entriesNamed_single merged a :
  NoDup (map a_name merged) -> In a merged ->
  entriesNamed (a_name a) merged = [a].
Proof.
  unfold entriesNamed. induction merged as [|x rest IH]; intros Hnd Hin; [destruct Hin|].
  simpl in *. inversion Hnd as [|? ? Hfresh Hnd']; subst.
  destruct Hin as [-> | Hin].
  - rewrite String.eqb_refl. f_equal.
    apply filter_none. intros y Hy. apply String.eqb_neq.
    intros E. apply Hfresh. rewrite <- E. now apply in_map.
  - destruct (String.eqb (a_name x) (a_name a)) eqn:E; [|auto].
    apply String.eqb_eq in E. exfalso. apply Hfresh. rewrite E. now apply in_map.
Qed.

Lemma bound_unique merged n t t' :
  NoDup (map a_name merged) -> bound n t merged -> bound n t' merged -> t = t'.
Proof.
  intros Hnd (y & Hy & Hn & Ht) (y' & Hy' & Hn' & Ht').
  assert (E : entriesNamed n merged = [y]).
  { rewrite <- Hn. now apply entriesNamed_single. }
  assert (E' : entriesNamed n merged = [y']).
  { rewrite <- Hn'. now apply entriesNamed_single. }
  congruence.
Qed.

(** Redeclaring a bound name with the bound type replaces the entry
    in place. *)
Lemma applyAttribute_override o merged a b :
  NoDup (map a_name merged) ->
  In b merged ->
  a_name a = a_name b ->
  a_type a = a_type b ->
  exists merged',
    applyAttribute o merged a = Ok merged'
    /\ map a_name merged' = map a_name merged
    /\ entriesNamed (a_name a) merged' = [a].
Proof.
  intros Hnd Hb Hn Ht.
  assert (Hok : exists merged', applyAttribute o merged a = Ok merged').
  { induction merged as [|x rest IH]; [destruct Hb|].
    inversion Hnd as [|? ? Hfresh Hnd']; subst.
    simpl. destruct (String.eqb (a_name x) (a_name a)) eqn:E.
    - apply String.eqb_eq in E. destruct Hb as [-> | Hb].
      + rewrite Ht, (proj2 (SemType_eqb_eq _ _) eq_refl). eauto.
      + exfalso. apply Hfresh. rewrite E, Hn. now apply in_map.
    - destruct Hb as [-> | Hb].
      + rewrite Hn, String.eqb_refl in E. discriminate.
      + destruct (IH Hnd' Hb) as [r ->]. simpl. eauto. }
  destruct Hok as [merged' H]. exists merged'. split; [assumption|].
  destruct (applyAttribute_names _ _ _ _ H) as [[_ Hnames] | [Hnin _]].
  - split; [assumption|]. apply entriesNamed_single.
    + now rewrite Hnames.
    + eapply applyAttribute_in; eauto.
  - exfalso. apply Hnin. rewrite Hn. now apply in_map.
Qed.

End AttributeFacts.

Section ConcreteSchemas.

Lemma names_member_unique s e e' :
  namesUnique s -> In e s -> In e' s -> e_name e = e_name e' -> e = e'.
Proof.
  intros Hu He He' E.
  pose proof (entity_of_member s e Hu He) as H.
  pose proof (entity_of_member s e' Hu He') as H'.
  congruence.
Qed.

(** A schema on which [resolve] does not report a cycle has none. *)
Lemma acyclic_of_resolve s :
  parentsResolvable s ->
  (forall f, resolve s = Err f -> errorKind f <> CyclicInheritanceError) ->
  acyclic s.
Proof.
  intros Hres H n Hn.
  assert (Hc : cyclic s) by (now exists n).
  destruct (resolve_cyclic s Hres Hc) as (f & Hf & Hk).
  now apply (H f).
Qed.

Lemma conflictSchema_contract : upstreamContract conflictSchema.
Proof.
  repeat split.
  - repeat constructor; simpl; intuition discriminate.
  - intros e p [<- | [<- | []]]; simpl; intros [= <-]; discriminate.
  - repeat constructor; simpl; intuition discriminate.
Qed.

Lemma conflictSchema_acyclic : acyclic conflictSchema.
Proof.
  apply acyclic_of_resolve; [apply conflictSchema_contract|].
  intros f [= <-]. discriminate.
Qed.

Lemma exampleSchema_contract : upstreamContract exampleSchema.
Proof.
  repeat split.
  - repeat constructor; simpl; intuition discriminate.
  - intros e p [<- | [<- | []]]; simpl; intros [= <-]; discriminate.
  - repeat constructor; simpl; intuition discriminate.
Qed.

Lemma exampleSchema_acyclic : acyclic exampleSchema.
Proof.
  apply acyclic_of_resolve; [apply exampleSchema_contract|].
  intros f H. vm_compute in H. discriminate.
Qed.

End ConcreteSchemas.

(** C1, as stated, fails: a schema without any cycle, satisfying the
    upstream contract, in which Employee redeclares an attribute of
    Person with another type, is not resolved to a mapping (resolution
    fails with AttributeTypeConflictError). *)
Lemma acyclic_schema_with_conflict_fails :
  upstreamContract conflictSchema
  /\ acyclic conflictSchema
  /\ ~ resolvesEveryEntity conflictSchema.
Proof.
  split; [apply conflictSchema_contract|].
  split; [apply conflictSchema_acyclic|].
  intros (m & H & _). discriminate H.
Qed.

(** C1, amended.  On every schema with unique entity names, resolvable
    parents and no inheritance cycle, [resolve] terminates (no walk
    exhausts its step bound); it can only fail with
    AttributeTypeConflictError, InvalidOverrideError or
    UnimplementedAbstractMethodError; whenever it succeeds, and it does
    whenever the attribute and method merges of every entity succeed,
    the mapping has exactly one binding per entity of the schema, in
    declaration order, built from that entity. *)
Theorem resolve_acyclic_schema :
  forall s,
    namesUnique s -> parentsResolvable s -> acyclic s ->
    (forall e, In e s -> walkToRoot s (S (List.length s)) [] e <> None)
    /\ (forall f, resolve s = Err f ->
          errorKind f = AttributeTypeConflictError
          \/ errorKind f = InvalidOverrideError
          \/ errorKind f = UnimplementedAbstractMethodError)
    /\ (forall m, resolve s = Ok m ->
          map fst m = map e_name s /\ NoDup (map fst m)
          /\ Forall2 (resolvedFrom s) s m)
    /\ (mergesSucceed s -> resolvesEveryEntity s).
Proof.
  intros s Hu Hres Hac.
  assert (Hok : forall m, resolve s = Ok m ->
                  map fst m = map e_name s /\ NoDup (map fst m)
                  /\ Forall2 (resolvedFrom s) s m).
  { intros m H. destruct (resolve_names s m H) as [Hn _].
    split; [assumption|]. split; [now rewrite Hn | now apply resolve_bindings]. }
  split; [|split; [|split]].
  - intros e Hin. apply walk_never_exhausted; auto.
    + constructor.
    + intros x [].
    + simpl. lia.
  - intros f H. destruct (chains_ok s Hu Hres Hac) as [chains Hc].
    now apply (resolve_err_kinds s chains).
  - exact Hok.
  - intros Hms. destruct (resolve_ok_of_merges s Hu Hres Hac Hms) as [m H].
    exists m. destruct (Hok m H) as (? & ? & _). auto.
Qed.

Lemma resolve_acyclic_schema_witness :
    (forall e, In e exampleSchema ->
       walkToRoot exampleSchema (S (List.length exampleSchema)) [] e <> None)
    /\ (forall f, resolve exampleSchema = Err f ->
          errorKind f = AttributeTypeConflictError
          \/ errorKind f = InvalidOverrideError
          \/ errorKind f = UnimplementedAbstractMethodError)
    /\ (forall m, resolve exampleSchema = Ok m ->
          map fst m = map e_name exampleSchema /\ NoDup (map fst m)
          /\ Forall2 (resolvedFrom exampleSchema) exampleSchema m)
    /\ (mergesSucceed exampleSchema -> resolvesEveryEntity exampleSchema).
Proof.
  apply (resolve_acyclic_schema exampleSchema).
  - apply exampleSchema_contract.
  - apply exampleSchema_contract.
  - apply exampleSchema_acyclic.
Defined.

(** C3, as stated, fails: in a schema whose first entity declares a
    parent that is absent, the walk from that entity fails with
    UnknownParentError before the self-parent cycle of a later entity
    is met. *)
Lemma cycle_hidden_by_unknown_parent :
  (exists e, In e danglingCycle
             /\ ancestorOf danglingCycle (e_name e) (e_name e))
  /\ resolve danglingCycle = Err (mkFailure UnknownParentError (Some "X"))
  /\ ~ exists f, resolve danglingCycle = Err f
                 /\ errorKind f = CyclicInheritanceError.
Proof.
  split; [|split].
  - exists (ent "A" (Some "A")). split; [simpl; auto|].
    apply t1n_step. exists (ent "A" (Some "A")). split; reflexivity.
  - reflexivity.
  - intros (f & H & K). vm_compute in H. injection H as <-. discriminate K.
Qed.

(** C3, amended.  A schema all of whose declared parents are resolvable
    in it (as the upstream boundary guarantees) and that contains an
    entity which is its own ancestor, through any number of parent
    steps, fails resolution with CyclicInheritanceError. *)
Theorem cyclic_schema_is_rejected :
  forall s,
    parentsResolvable s ->
    (exists e, In e s /\ ancestorOf s (e_name e) (e_name e)) ->
    exists f, resolve s = Err f /\ errorKind f = CyclicInheritanceError.
Proof.
  intros s Hres (e & _ & He). apply resolve_cyclic; [assumption|].
  now exists (e_name e).
Qed.

Lemma cyclic_schema_is_rejected_witness :
  exists f, resolve cycle1 = Err f /\ errorKind f = CyclicInheritanceError.
Proof.
  apply (cyclic_schema_is_rejected cycle1).
  - intros e p [<- | []]; simpl; intros [= <-]; discriminate.
  - exists (ent "A" (Some "A")). split; [simpl; auto|].
    apply t1n_step. exists (ent "A" (Some "A")). split; reflexivity.
Defined.

Example cycles_of_length_one_two_three :
  resolve cycle1 = Err (mkFailure CyclicInheritanceError (Some "A"))
  /\ resolve cycle2 = Err (mkFailure CyclicInheritanceError (Some "A"))
  /\ resolve cycle3 = Err (mkFailure CyclicInheritanceError (Some "A")).
Proof. repeat split; reflexivity. Qed.

(** C4.  In the attribute merge of [resolve]: let the child [e]
    declare an attribute [a] with the name of an attribute [b] of one
    of its ancestors.  If the types agree, the merged mapping of [e]
    holds exactly one entry under that name, the child's [a]; if they
    differ, [resolve] fails with AttributeTypeConflictError. *)
Theorem attribute_redeclaration :
  forall s e chain anc a b,
    walksSucceed s ->
    In e s ->
    NoDup (map a_name (e_attributes e)) ->
    ancestorChain s e = Ok chain ->
    In anc chain ->
    In b (e_attributes anc) ->
    In a (e_attributes e) ->
    a_name a = a_name b ->
    (a_type a = a_type b ->
     (forall owner merged,
        NoDup (map a_name merged) -> In b merged ->
        exists merged',
          applyAttribute owner merged a = Ok merged'
          /\ map a_name merged' = map a_name merged
          /\ entriesNamed (a_name a) merged' = [a])
     /\ forall m, resolve s = Ok m ->
          (exists p, In p m /\ fst p = e_name e /\ r_entity (snd p) = e)
          /\ forall p, In p m -> r_entity (snd p) = e ->
               entriesNamed (a_name a) (r_attributes (snd p)) = [a])
    /\ (a_type a <> a_type b ->
        exists f, resolve s = Err f /\ errorKind f = AttributeTypeConflictError).
Proof.
  intros s e chain anc a b [chains Hc] He Hown Hchain Hanc Hb Ha Hname. split.
  - intros Htype. split.
    { intros owner merged Hnd Hin. now apply applyAttribute_override with b. }
    intros m Hm. apply resolve_bindings in Hm. split.
    + destruct (Forall2_in_l _ _ _ _ Hm He) as (p & Hp & Hfrom).
      exists p. split; [assumption|].
      destruct Hfrom as (? & ? & ? & _ & _ & _ & ->). auto.
    + intros p Hp Hent.
      destruct (Forall2_in_r _ _ _ _ Hm Hp) as (e' & He' & Hfrom).
      destruct Hfrom as (chain' & attrs & methods & _ & Hattrs & _ & ->).
      simpl in Hent. subst e'. simpl.
      apply entriesNamed_single.
      * eapply mergeAttributes_nodup; eauto.
      * eapply mergeAttributes_own; eauto.
  - intros Htype. unfold allEntities in Hc.
    pose proof (mapM_ok _ _ _ Hc) as HF.
    destruct (Forall2_in_l _ _ _ _ HF He) as (ec & Hec & Hch).
    unfold chainOf in Hch. rewrite Hchain in Hch. simpl in Hch. injection Hch as <-.
    assert (Hfail : exists f0, attributesOf (e, chain) = Err f0).
    { unfold attributesOf. simpl.
      destruct (mergeAttributes (chain ++ [e])) as [attrs|f0] eqn:Hattrs; [|simpl; eauto].
      exfalso. apply Htype.
      apply (bound_unique attrs (a_name a)).
      - eapply mergeAttributes_nodup; eauto.
      - apply (mergeAttributes_binds _ _ e a Hattrs); auto.
        apply in_or_app. right. now left.
      - rewrite Hname. apply (mergeAttributes_binds _ _ anc b Hattrs); auto.
        apply in_or_app. now left. }
    destruct Hfail as [f0 Hf0].
    destruct (mapM_fails _ _ _ _ Hec Hf0) as [fl Hfl].
    exists fl. split.
    + unfold resolve, allEntities. rewrite Hc. simpl. now rewrite Hfl.
    + revert Hfl. apply (mapM_err _ (fun e => errorKind e = AttributeTypeConflictError)).
      intros [e1 c1] e' _ He1. unfold attributesOf in He1.
      apply bind_err in He1 as [He1 | (? & _ & ?)]; [|discriminate].
      now apply mergeAttributes_err in He1.
Qed.

Lemma attribute_redeclaration_witness :
  (forall m, resolve overrideSchema = Ok m ->
     (exists p, In p m /\ fst p = "Employee" /\ r_entity (snd p) = employeeRenamed)
     /\ forall p, In p m -> r_entity (snd p) = employeeRenamed ->
          entriesNamed "name" (r_attributes (snd p))
          = [attr "name" TString (Some "anonymous")])
  /\ exists f, resolve conflictSchema = Err f
               /\ errorKind f = AttributeTypeConflictError.
Proof.
  split.
  - apply (attribute_redeclaration overrideSchema employeeRenamed [personNamed] personNamed
             (attr "name" TString (Some "anonymous")) (attr "name" TString None)).
    + eexists. reflexivity.
    + simpl. auto.
    + repeat constructor. simpl. intuition.
    + reflexivity.
    + simpl. auto.
    + simpl. auto.
    + simpl. auto.
    + reflexivity.
    + reflexivity.
  - apply (attribute_redeclaration conflictSchema employeeRetyped [personNamed] personNamed
             (attr "name" (TPrimitive "int") None) (attr "name" TString None)).
    + eexists. reflexivity.
    + simpl. auto.
    + repeat constructor. simpl. intuition.
    + reflexivity.
    + simpl. auto.
    + simpl. auto.
    + simpl. auto.
    + reflexivity.
    + discriminate.
Defined.

Example override_keeps_one_entry :
  match resolve overrideSchema with
  | Ok m => map (fun p => (fst p, r_attributes (snd p))) m
  | Err _ => []
  end
  = [("Person", [attr "name" TString None]);
     ("Employee", [attr "name" TString (Some "anonymous")])].
Proof. reflexivity. Qed.

Section SynthesizerFacts.

(** The synthesizer of the specification gives every entity exactly one
    default constructor. *)
Lemma synthesize_one_default_ctor r em :
  synthesize r = Ok em ->
  List.length (filter (fun k => match k_params k with [] => true | _ :: _ => false end)
                      (em_constructors em)) = 1.
Proof.
  unfold synthesize.
  destruct (hasDuplicateSignature _); [discriminate|].
  intros [= <-]. simpl. unfold constructorsOf.
  destruct (filter isRequired (e_attributes (r_entity r))); reflexivity.
Qed.

End SynthesizerFacts.

(** C9.  When resolution fails, [generate] returns no unit and exactly
    one diagnostic, which is fatal and reports the failure of the
    resolver. *)
Theorem generate_aborts_on_resolution_failure :
  forall s f,
    resolve s = Err f ->
    units (generate s) = []
    /\ exists d, diagnostics (generate s) = [d]
                 /\ severity d = Fatal
                 /\ d_errorKind d = errorKind f
                 /\ entityName d = offender f.
Proof.
  intros s f H. unfold generate. rewrite H. simpl. split; [reflexivity|].
  eexists. repeat split.
Qed.

Lemma generate_aborts_on_resolution_failure_witness :
    units (generate cycle2) = []
    /\ exists d, diagnostics (generate cycle2) = [d]
                 /\ severity d = Fatal
                 /\ d_errorKind d = CyclicInheritanceError
                 /\ entityName d = Some "A".
Proof.
  apply (generate_aborts_on_resolution_failure cycle2
           (mkFailure CyclicInheritanceError (Some "A"))).
  reflexivity.
Defined.

(** * Further properties of the generated units *)

Import Members Inclusion.

Section InclusionFacts.

Variable files : list (string * list string).

Lemma fold_left_none {A B} (f : option A -> B -> option A) l :
  (forall x, f None x = None) -> fold_left f l None = None.
Proof. intros H. induction l as [|x l IH]; simpl; [reflexivity | now rewrite H]. Qed.

Lemma expand_nil d st : expand (S d) files st [] = Some st.
Proof. reflexivity. Qed.

Lemma expand_cons d st l ls :
  expand (S d) files st (l :: ls)
  = match expand_line files (expand d files) st l with
    | Some st' => expand (S d) files st' ls
    | None => None
    end.
Proof.
  simpl. destruct (expand_line files (expand d files) st l); [reflexivity|].
  now apply fold_left_none.
Qed.

Lemma expand_app d st l1 l2 :
  expand (S d) files st (l1 ++ l2)
  = match expand (S d) files st l1 with
    | Some st' => expand (S d) files st' l2
    | None => None
    end.
Proof.
  revert st. induction l1 as [|l l1 IH]; intros st; [reflexivity|].
  rewrite <- app_comm_cons, !expand_cons.
  destruct (expand_line files (expand d files) st l); auto.
Qed.

(** Lines without quoted includes are read as without inclusion. *)
Lemma expand_no_quote d st ls :
  forallb no_quote_include ls = true ->
  expand (S d) files st ls = Some (pp_lines st ls).
Proof.
  revert st. induction ls as [|l ls IH]; intros st H; [reflexivity|].
  simpl in H. apply andb_true_iff in H as [Hl H].
  rewrite expand_cons, pp_lines_cons.
  assert (E : expand_line files (expand d files) st l = Some (pp_line st l)).
  { unfold expand_line. unfold no_quote_include in Hl.
    destruct (directive_of l) as [[g|g| |[|] t]|]; try reflexivity. discriminate. }
  rewrite E. now apply IH.
Qed.

(** In a skipped group nothing is read, included files neither. *)
Lemma expand_skipped d st ls :
  active st = false ->
  forallb is_flat ls = true ->
  expand (S d) files st ls = Some st.
Proof.
  intros Hact. induction ls as [|l ls IH]; intros H; [reflexivity|].
  simpl in H. apply andb_true_iff in H as [Hl H].
  rewrite expand_cons.
  assert (E : expand_line files (expand d files) st l = Some st).
  { unfold expand_line, pp_line. unfold is_flat in Hl.
    destruct (directive_of l) as [[g|g| |[|] t]|]; try discriminate;
      rewrite Hact; reflexivity. }
  rewrite E. now apply IH.
Qed.

End InclusionFacts.

Section GuardShape.

Lemma pp_passes st ls :
  active st = true ->
  forallb passes ls = true ->
  pp_lines st ls = mkPState (defined st) (conds st) (rev ls ++ emitted st).
Proof.
  revert st. induction ls as [|l ls IH]; intros st Hact Hall.
  - destruct st; reflexivity.
  - simpl in Hall. apply andb_true_iff in Hall as [Hl Hall].
    rewrite pp_lines_cons.
    assert (E : pp_line st l = mkPState (defined st) (conds st) (l :: emitted st)).
    { unfold pp_line. unfold passes in Hl.
      destruct (directive_of l) as [[g|g| |f t]|]; try discriminate; now rewrite Hact. }
    rewrite E, IH by assumption. simpl.
    rewrite <- app_assoc. reflexivity.
Qed.

Lemma passes_flat ls : forallb passes ls = true -> forallb is_flat ls = true.
Proof.
  rewrite !forallb_forall. intros H x Hx. specialize (H x Hx).
  unfold passes in H. unfold is_flat.
  destruct (directive_of x) as [[g|g| |f t]|]; auto.
Qed.

Lemma plain_passes ls : forallb is_plain ls = true -> forallb passes ls = true.
Proof.
  rewrite !forallb_forall. intros H x Hx. specialize (H x Hx).
  unfold is_plain in H. unfold passes.
  destruct (directive_of x) as [[g|g| |f t]|]; auto.
Qed.

Lemma pp_ifndef st l g :
  directive_of l = Some (Ifndef g) ->
  pp_line st l = mkPState (defined st) (negb (mem g (defined st)) :: conds st) (emitted st).
Proof. intros D. unfold pp_line. now rewrite D. Qed.

Lemma pp_define st l g :
  directive_of l = Some (Define g) ->
  pp_line st l = if active st then mkPState (g :: defined st) (conds st) (emitted st) else st.
Proof. intros D. unfold pp_line. now rewrite D. Qed.

Lemma pp_endif st l :
  directive_of l = Some Endif ->
  pp_line st l = mkPState (defined st) (tl (conds st)) (emitted st).
Proof. intros D. unfold pp_line. now rewrite D. Qed.

(** A guarded file whose body holds only text and includes, read in
    any group that is taken. *)
Lemma pp_guarded_in g pre body post l1 l2 l3 defs cs em :
  directive_of l1 = Some (Ifndef g) ->
  directive_of l2 = Some (Define g) ->
  directive_of l3 = Some Endif ->
  forallb is_plain pre = true ->
  forallb is_plain post = true ->
  forallb passes body = true ->
  forallb (fun b => b) cs = true ->
  pp_lines (mkPState defs cs em) (pre ++ l1 :: l2 :: body ++ l3 :: post)
  = if mem g defs
    then mkPState defs cs (rev post ++ rev pre ++ em)
    else mkPState (g :: defs) cs (rev post ++ rev body ++ rev pre ++ em).
Proof.
  intros D1 D2 D3 Hpre Hpost Hbody Hcs.
  rewrite pp_lines_app, (pp_plain _ pre) by assumption.
  rewrite !pp_lines_cons. cbn [defined conds emitted].
  rewrite (pp_ifndef _ l1 g D1). cbn [defined conds emitted].
  rewrite (pp_define _ l2 g D2). unfold active. cbn [conds forallb defined emitted].
  rewrite Hcs, andb_true_r.
  destruct (mem g defs); cbn [negb].
  - rewrite pp_lines_app, (pp_skipped _ body);
      [| unfold active; simpl; reflexivity | now apply passes_flat].
    rewrite pp_lines_cons, (pp_endif _ l3 D3). cbn [defined conds emitted tl].
    rewrite (pp_plain _ post) by assumption. reflexivity.
  - rewrite pp_lines_app, (pp_passes _ body);
      [| unfold active; simpl; assumption | assumption].
    cbn [defined conds emitted].
    rewrite pp_lines_cons, (pp_endif _ l3 D3). cbn [defined conds emitted tl].
    rewrite (pp_plain _ post) by assumption. reflexivity.
Qed.

End GuardShape.

Section UnitsIncluded.

Lemma person_read d defs cs em :
  forallb (fun b => b) cs = true ->
  expand (S d) project_files (mkPState defs cs em) Person_h
  = Some (if mem "PERSON_H" defs
          then mkPState defs cs (rev person_again ++ em)
          else mkPState ("PERSON_H" :: defs) cs (rev person_first ++ em)).
Proof.
  intros Hcs. rewrite expand_no_quote by reflexivity. f_equal.
  change Person_h
    with (person_pre ++ "#ifndef PERSON_H" :: "#define PERSON_H"
                     :: person_body ++ "#endif // PERSON_H" :: []).
  rewrite (pp_guarded_in "PERSON_H") by (reflexivity || assumption).
  unfold person_first, person_again. rewrite rev_app_distr, <- app_assoc.
  reflexivity.
Qed.

Lemma employee_read d defs em :
  expand (S (S d)) project_files (mkPState defs [] em) Employee_h
  = Some (if mem "EMPLOYEE_H" defs
          then mkPState defs [] (rev employee_again ++ em)
          else if mem "PERSON_H" defs
          then mkPState ("EMPLOYEE_H" :: defs) [] (rev employee_after_person ++ em)
          else mkPState ("PERSON_H" :: "EMPLOYEE_H" :: defs) []
                        (rev employee_first ++ em)).
Proof.
  change Employee_h
    with (employee_pre
          ++ ["#ifndef EMPLOYEE_H"; "#define EMPLOYEE_H"]
          ++ employee_body1
          ++ [include_line PersonHeader]
          ++ employee_body2
          ++ ["#endif // EMPLOYEE_H"]
          ++ employee_post).
  rewrite expand_app, (expand_no_quote _ _ _ employee_pre) by reflexivity.
  rewrite (pp_plain _ employee_pre) by reflexivity.
  rewrite expand_app, (expand_no_quote _ _ _ [_; _]) by reflexivity.
  cbn [defined conds emitted].
  rewrite !pp_lines_cons.
  rewrite (pp_ifndef _ "#ifndef EMPLOYEE_H" "EMPLOYEE_H" eq_refl).
  cbn [defined conds emitted].
  rewrite (pp_define _ "#define EMPLOYEE_H" "EMPLOYEE_H" eq_refl). unfold active at 1.
  cbn [defined conds emitted forallb]. rewrite andb_true_r.
  change (pp_lines ?st []) with st.
  destruct (mem "EMPLOYEE_H" defs) eqn:He; cbn [negb].
  - (* the group is skipped, the include in it with it *)
    rewrite (app_assoc employee_body1), (app_assoc _ employee_body2).
    rewrite expand_app, expand_skipped by reflexivity.
    rewrite expand_no_quote by reflexivity. reflexivity.
  - rewrite expand_app, (expand_no_quote _ _ _ employee_body1) by reflexivity.
    rewrite (pp_passes _ employee_body1) by reflexivity.
    cbn [defined conds emitted].
    rewrite expand_app, expand_cons.
    assert (Hinc : forall st,
               active st = true ->
               expand_line project_files (expand (S d) project_files) st
                           (include_line PersonHeader)
               = expand (S d) project_files st Person_h).
    { intros st Hst. unfold expand_line.
      change (directive_of (include_line PersonHeader))
        with (Some (Include QuoteInclude "Person.h")).
      rewrite Hst. reflexivity. }
    rewrite Hinc by reflexivity.
    rewrite person_read by reflexivity.
    assert (Hp : mem "PERSON_H" ("EMPLOYEE_H" :: defs) = mem "PERSON_H" defs)
      by reflexivity.
    rewrite Hp.
    destruct (mem "PERSON_H" defs) eqn:Hpd.
    + rewrite expand_nil, expand_app, (expand_no_quote _ _ _ employee_body2) by reflexivity.
      rewrite (pp_passes _ employee_body2) by reflexivity.
      cbn [defined conds emitted].
      rewrite expand_no_quote by reflexivity.
      cbn [pp_lines fold_left app employee_post].
      rewrite (pp_endif _ "#endif // EMPLOYEE_H" eq_refl). cbn [defined conds emitted tl].
      unfold pp_line.
      change (directive_of EmptyString) with (@None Directive).
      cbn [active conds forallb defined emitted rev app].
      unfold employee_after_person.
      rewrite !rev_app_distr, <- !app_assoc. reflexivity.
    + rewrite expand_nil, expand_app, (expand_no_quote _ _ _ employee_body2) by reflexivity.
      rewrite (pp_passes _ employee_body2) by reflexivity.
      cbn [defined conds emitted].
      rewrite expand_no_quote by reflexivity.
      cbn [pp_lines fold_left app employee_post].
      rewrite (pp_endif _ "#endif // EMPLOYEE_H" eq_refl). cbn [defined conds emitted tl].
      unfold pp_line.
      change (directive_of EmptyString) with (@None Directive).
      cbn [active conds forallb defined emitted rev app].
      unfold employee_first.
      rewrite !rev_app_distr, <- !app_assoc. reflexivity.
Qed.

End UnitsIncluded.

Section IncludeSequences.

Lemma filter_map_app {A B} (f : A -> option B) l1 l2 :
  filter_map f (l1 ++ l2) = filter_map f l1 ++ filter_map f l2.
Proof.
  induction l1 as [|x l1 IH]; simpl; [reflexivity|].
  destruct (f x); simpl; now rewrite IH.
Qed.

Lemma scan_lines_app d l1 l2 :
  scan_lines d (l1 ++ l2)
  = match scan_lines d l1 with
    | Some d' => scan_lines d' l2
    | None => None
    end.
Proof.
  revert d. induction l1 as [|l l1 IH]; intros d; simpl; [reflexivity|].
  destruct (scan_braces d l); auto.
Qed.

Lemma classes_after delta em :
  defined_classes (rev (rev delta ++ em))
  = defined_classes (rev em) ++ defined_classes delta.
Proof.
  rewrite rev_app_distr, rev_involutive. apply filter_map_app.
Qed.

Lemma braces_after delta em :
  scan_lines 0 (rev em) = Some 0 ->
  scan_lines 0 delta = Some 0 ->
  scan_lines 0 (rev (rev delta ++ em)) = Some 0.
Proof.
  intros Hem Hd. now rewrite rev_app_distr, rev_involutive, scan_lines_app, Hem.
Qed.

Lemma include_line_read d st h :
  active st = true ->
  expand_line project_files (expand (S d) project_files) st (include_line h)
  = expand (S d) project_files st
           (match h with PersonHeader => Person_h | EmployeeHeader => Employee_h end).
Proof.
  intros Hact. unfold expand_line.
  replace (directive_of (include_line h))
    with (Some (Include QuoteInclude (header_file h))) by (destruct h; reflexivity).
  rewrite Hact. destruct h; reflexivity.
Qed.

(** What a sequence of includes adds to a translation unit whose
    text so far is brace-balanced. *)
Lemma including_read d hs :
  forall defs em,
    (mem "EMPLOYEE_H" defs = true -> mem "PERSON_H" defs = true) ->
    scan_lines 0 (rev em) = Some 0 ->
    exists defs' em',
      expand (S (S (S d))) project_files (mkPState defs [] em) (including hs)
      = Some (mkPState defs' [] em')
      /\ defined_classes (rev em')
         = defined_classes (rev em)
           ++ added_classes (mem "PERSON_H" defs) (mem "EMPLOYEE_H" defs) hs
      /\ scan_lines 0 (rev em') = Some 0.
Proof.
  induction hs as [|h hs IH]; intros defs em Hinv Hbal.
  - exists defs, em. repeat split; [|assumption].
    unfold added_classes. simpl. rewrite !andb_false_r. simpl. now rewrite app_nil_r.
  - change (including (h :: hs)) with (include_line h :: including hs).
    rewrite expand_cons, include_line_read by reflexivity.
    destruct h.
    + rewrite person_read by reflexivity.
      destruct (mem "PERSON_H" defs) eqn:Hp.
      * destruct (IH defs (rev person_again ++ em)) as (defs' & em' & Hex & Hcl & Hb);
          [intros _; exact Hp | now apply braces_after |].
        exists defs', em'. split; [assumption|]. split; [|assumption].
        rewrite Hcl, classes_after, Hp, <- app_assoc. f_equal.
      * destruct (IH ("PERSON_H" :: defs) (rev person_first ++ em))
          as (defs' & em' & Hex & Hcl & Hb);
          [reflexivity | now apply braces_after |].
        exists defs', em'. split; [assumption|]. split; [|assumption].
        rewrite Hcl, classes_after, <- app_assoc. f_equal.
    + rewrite employee_read.
      destruct (mem "EMPLOYEE_H" defs) eqn:He.
      * pose proof (Hinv eq_refl) as Hp.
        destruct (IH defs (rev employee_again ++ em)) as (defs' & em' & Hex & Hcl & Hb);
          [intros _; exact Hp | now apply braces_after |].
        exists defs', em'. split; [assumption|]. split; [|assumption].
        rewrite Hcl, classes_after, He, Hp, <- app_assoc. reflexivity.
      * destruct (mem "PERSON_H" defs) eqn:Hp.
        -- destruct (IH ("EMPLOYEE_H" :: defs) (rev employee_after_person ++ em))
             as (defs' & em' & Hex & Hcl & Hb);
             [intros _; exact Hp | now apply braces_after |].
           exists defs', em'. split; [assumption|]. split; [|assumption].
           rewrite Hcl, classes_after, <- app_assoc. f_equal.
           change (mem "EMPLOYEE_H" ("EMPLOYEE_H" :: defs)) with true.
           change (mem "PERSON_H" ("EMPLOYEE_H" :: defs)) with (mem "PERSON_H" defs).
           rewrite Hp. reflexivity.
        -- destruct (IH ("PERSON_H" :: "EMPLOYEE_H" :: defs) (rev employee_first ++ em))
             as (defs' & em' & Hex & Hcl & Hb);
             [reflexivity | now apply braces_after |].
           exists defs', em'. split; [assumption|]. split; [|assumption].
           rewrite Hcl, classes_after, <- app_assoc. f_equal.
Qed.

End IncludeSequences.

(** X1.  A source file may include [Person.h] and [Employee.h] in any
    order and any number of times: as long as neither guard macro is
    defined beforehand and at least one of them is included, the
    compiler sees class Person exactly once, class Employee exactly
    once when [Employee.h] is among the includes and not at all
    otherwise, and Person, the base, before Employee. *)
Theorem headers_in_any_order :
  forall hs defs d,
    hs <> [] ->
    ~ In "PERSON_H" defs ->
    ~ In "EMPLOYEE_H" defs ->
    exists code,
      compiler_input (3 + d) defs (including hs) = Some code
      /\ defined_classes code
         = ("Person", None)
           :: (if existsb is_employee hs then [("Employee", Some "Person")] else []).
Proof.
  intros hs defs d Hne Hp He.
  apply mem_false_notin in Hp, He.
  destruct (including_read d hs defs []) as (defs' & em' & Hex & Hcl & _).
  - rewrite He. discriminate.
  - reflexivity.
  - exists (rev em'). split.
    + unfold compiler_input. simpl plus. now rewrite Hex.
    + rewrite Hcl, Hp, He. unfold added_classes.
      destruct hs as [|h hs]; [contradiction|]. simpl.
      destruct (is_employee h || existsb is_employee hs); reflexivity.
Qed.

Lemma headers_in_any_order_witness :
  exists code,
    compiler_input 3 [] (including [EmployeeHeader; PersonHeader]) = Some code
    /\ defined_classes code = [("Person", None); ("Employee", Some "Person")].
Proof.
  apply (headers_in_any_order [EmployeeHeader; PersonHeader] [] 0).
  - discriminate.
  - simpl. auto.
  - simpl. auto.
Defined.

(** X2.  Whatever sequence of the two headers a source file includes,
    every brace the included text opens (namespace, class, inline
    bodies) is closed again by it, and none is closed that was not
    opened: code after the includes is at file scope. *)
Theorem included_headers_close_their_braces :
  forall hs defs d,
    ~ In "PERSON_H" defs ->
    ~ In "EMPLOYEE_H" defs ->
    exists code,
      compiler_input (3 + d) defs (including hs) = Some code
      /\ scan_lines 0 code = Some 0.
Proof.
  intros hs defs d Hp He.
  apply mem_false_notin in Hp, He.
  destruct (including_read d hs defs []) as (defs' & em' & Hex & _ & Hb).
  - rewrite He. discriminate.
  - reflexivity.
  - exists (rev em'). split; [|assumption].
    unfold compiler_input. simpl plus. now rewrite Hex.
Qed.

Lemma included_headers_close_their_braces_witness :
  exists code,
    compiler_input 3 [] (including [PersonHeader; EmployeeHeader]) = Some code
    /\ scan_lines 0 code = Some 0.
Proof.
  apply (included_headers_close_their_braces [PersonHeader; EmployeeHeader] [] 0);
    simpl; auto.
Defined.

(** X4.  Of the member functions the two units declare under
    [// Public methods] and [// Getters and Setters], [display() const]
    is the one that is virtual, and it is so in both classes: in Person
    by its keyword, in Employee, which declares it without one, by
    overriding Person's.  No other of these member functions is
    virtual in either class, and no other carries the keyword. *)
Theorem display_is_the_virtual_member_function :
  forall u u' m,
    In u header_units ->
    In u' header_units ->
    In m (cu_methods u') ->
    method_virtual header_units (cname (cu_class u)) (signature_of m)
    = String.eqb (md_name m) "display"
    /\ md_virtual m
       = (String.eqb (md_name m) "display"
          && String.eqb (cname (cu_class u')) "Person").
Proof.
  intros u u' m Hu Hu' Hm. vm_compute in Hu, Hu'.
  destruct Hu' as [<- | [<- | []]]; vm_compute in Hm;
    repeat (destruct Hm as [<- | Hm];
            [destruct Hu as [<- | [<- | []]]; split; reflexivity|]);
    destruct Hm.
Qed.

Lemma display_is_the_virtual_member_function_witness :
  method_virtual header_units "Employee"
    (signature_of (mkMethodDecl false "void" "display" [] true false None))
  = true
  /\ false = (true && false).
Proof.
  apply (display_is_the_virtual_member_function
           (mkClassUnit
              (mkClass "Employee" (Some "Person")
                 [mkField "std::string" "employeeId" None;
                  mkField "double" "salary" (Some "0.0")]
                 [mkCtor false []] [mkDtor false])
              (all_methods Employee_h))
           (mkClassUnit
              (mkClass "Employee" (Some "Person")
                 [mkField "std::string" "employeeId" None;
                  mkField "double" "salary" (Some "0.0")]
                 [mkCtor false []] [mkDtor false])
              (all_methods Employee_h))
           (mkMethodDecl false "void" "display" [] true false None)).
  - vm_compute. auto.
  - vm_compute. auto.
  - vm_compute. auto.
Defined.

(** X7.  Every member function of Person is available on an Employee;
    Employee replaces [display] by its own declaration and takes all
    the others from Person. *)
Theorem employee_overrides_only_display :
  forall m,
    In m (all_methods Person_h) ->
    implementer header_units "Employee" (signature_of m)
    = Some (if String.eqb (md_name m) "display" then "Employee" else "Person").
Proof.
  intros m Hm. vm_compute in Hm.
  repeat (destruct Hm as [<- | Hm]; [reflexivity|]). destruct Hm.
Qed.

Lemma employee_overrides_only_display_witness :
  implementer header_units "Employee"
    (signature_of (mkMethodDecl false "int" "getAge" [] true true None))
  = Some "Person".
Proof.
  apply (employee_overrides_only_display
           (mkMethodDecl false "int" "getAge" [] true true None)).
  vm_compute. auto.
Defined.

(** X8.  The accessors of both units follow one convention: a member
    function whose name starts with [get] is const, takes no parameter
    and returns a value; one whose name starts with [set] is not const,
    takes exactly one parameter and returns nothing. *)
Theorem accessors_follow_the_convention :
  forall h m,
    In h generated_units ->
    In m (all_methods h) ->
    (is_getter m = true ->
       md_const m = true /\ md_params m = [] /\ md_return m <> "void")
    /\ (is_setter m = true ->
          md_const m = false /\ List.length (md_params m) = 1 /\ md_return m = "void").
Proof.
  intros h m [<- | [<- | []]] Hm; vm_compute in Hm;
    repeat (destruct Hm as [<- | Hm];
            [split; intros H; try discriminate H; repeat split; discriminate|]);
    destruct Hm.
Qed.

Lemma accessors_follow_the_convention_witness :
  (is_getter (mkMethodDecl false "void" "setName"
                [mkParam "std::string&" "value"] false false None) = true ->
     false = true /\ [mkParam "std::string&" "value"] = [] /\ "void" <> "void")
  /\ (is_setter (mkMethodDecl false "void" "setName"
                   [mkParam "std::string&" "value"] false false None) = true ->
        false = false /\ List.length [mkParam "std::string&" "value"] = 1
        /\ "void" = "void").
Proof.
  apply (accessors_follow_the_convention Person_h
           (mkMethodDecl false "void" "setName"
              [mkParam "std::string&" "value"] false false None)).
  - simpl. auto.
  - vm_compute. auto.
Defined.

(** X9.  Every accessor declared under [// Public methods] stands for
    a data member of its own class: [getX] or [setX] finds a field [x]
    there, a getter returns the type of the field and a setter takes
    it (by value or by reference). *)
Theorem declared_accessors_match_fields :
  forall h c m x,
    In h generated_units ->
    parse_class h = Some c ->
    In m (declared_methods h) ->
    accessed_member m = Some x ->
    exists f,
      In f (cfields c) /\ f_name f = x
      /\ (is_getter m = true -> md_return m = f_type f)
      /\ (is_setter m = true ->
            map (fun p => bare_type (p_type p)) (md_params m) = [f_type f]).
Proof.
  assert (Hfield : forall (l : list Field) (m : MethodDecl) (x : string) (f : Field),
             In f l -> f_name f = x ->
             (is_getter m = true -> md_return m = f_type f) ->
             (is_setter m = true ->
                map (fun p => bare_type (p_type p)) (md_params m) = [f_type f]) ->
             exists f', In f' l /\ f_name f' = x
               /\ (is_getter m = true -> md_return m = f_type f')
               /\ (is_setter m = true ->
                     map (fun p => bare_type (p_type p)) (md_params m) = [f_type f'])).
  { intros l m x f. exists f. auto. }
  intros h c m x [<- | [<- | []]] Hc Hm Hx;
    vm_compute in Hc; injection Hc as <-; vm_compute in Hm; cbn [cfields].
  - destruct Hm as [<- | [<- | [<- | [<- | []]]]]; vm_compute in Hx;
      try discriminate Hx; injection Hx as <-.
    + apply (Hfield _ _ _ (mkField "std::string" "name" None));
        [simpl; auto | reflexivity | reflexivity | discriminate].
    + apply (Hfield _ _ _ (mkField "std::string" "name" None));
        [simpl; auto | reflexivity | discriminate | reflexivity].
    + apply (Hfield _ _ _ (mkField "int" "age" None));
        [simpl; auto | reflexivity | reflexivity | discriminate].
  - destruct Hm as [<- | [<- | [<- | []]]]; vm_compute in Hx;
      try discriminate Hx; injection Hx as <-.
    + apply (Hfield _ _ _ (mkField "std::string" "employeeId" None));
        [simpl; auto | reflexivity | reflexivity | discriminate].
    + apply (Hfield _ _ _ (mkField "double" "salary" (Some "0.0")));
        [simpl; auto | reflexivity | discriminate | reflexivity].
Qed.

Lemma declared_accessors_match_fields_witness :
  exists f,
    In f [mkField "std::string" "employeeId" None;
          mkField "double" "salary" (Some "0.0")]
    /\ f_name f = "salary"
    /\ (is_getter (mkMethodDecl false "void" "setSalary" [mkParam "double" "value"]
                     false false None) = true -> "void" = f_type f)
    /\ (is_setter (mkMethodDecl false "void" "setSalary" [mkParam "double" "value"]
                     false false None) = true ->
          map (fun p => bare_type (p_type p)) [mkParam "double" "value"] = [f_type f]).
Proof.
  apply (declared_accessors_match_fields Employee_h
           (mkClass "Employee" (Some "Person")
              [mkField "std::string" "employeeId" None;
               mkField "double" "salary" (Some "0.0")]
              [mkCtor false []] [mkDtor false])
           (mkMethodDecl false "void" "setSalary" [mkParam "double" "value"]
              false false None)
           "salary").
  - simpl. auto.
  - reflexivity.
  - vm_compute. auto.
  - reflexivity.
Defined.

(** X10.  The accessors defined inline under [// Getters and Setters]
    read and write a member that no class of the generated units
    declares ([email] in [Person.h]). *)
Theorem inline_accessors_use_undeclared_member :
  forall h m,
    In h generated_units ->
    In m (inline_methods h) ->
    exists x,
      body_member m = Some x
      /\ accessed_member m = Some x
      /\ forall c, In c header_classes -> ~ In x (map f_name (cfields c)).
Proof.
  intros h m [<- | [<- | []]] Hm; vm_compute in Hm;
    repeat (destruct Hm as [<- | Hm];
            [exists "email"; split; [reflexivity|]; split; [reflexivity|];
             intros c Hc; vm_compute in Hc;
             destruct Hc as [<- | [<- | []]]; simpl; intuition discriminate|]);
    destruct Hm.
Qed.

Lemma inline_accessors_use_undeclared_member_witness :
  exists x,
    body_member (mkMethodDecl false "std::string" "getEmail" [] true false
                   (Some "return email;")) = Some x
    /\ accessed_member (mkMethodDecl false "std::string" "getEmail" [] true false
                          (Some "return email;")) = Some x
    /\ forall c, In c header_classes -> ~ In x (map f_name (cfields c)).
Proof.
  apply (inline_accessors_use_undeclared_member Person_h
           (mkMethodDecl false "std::string" "getEmail" [] true false
              (Some "return email;"))).
  - simpl. auto.
  - vm_compute. auto.
Defined.

(** X11.  The project include of a unit is exactly the header of the
    base of its class: [Base.h] for a derived class, nothing for a
    class without base. *)
Theorem unit_includes_header_of_base :
  forall h c,
    In h generated_units ->
    parse_class h = Some c ->
    project_includes h
    = match cbase c with
      | Some b => [(b ++ ".h")%string]
      | None => []
      end.
Proof.
  intros h c [<- | [<- | []]] Hc; vm_compute in Hc; injection Hc as <-; reflexivity.
Qed.

Lemma unit_includes_header_of_base_witness :
  project_includes Employee_h = ["Person.h"].
Proof.
  apply (unit_includes_header_of_base Employee_h
           (mkClass "Employee" (Some "Person")
              [mkField "std::string" "employeeId" None;
               mkField "double" "salary" (Some "0.0")]
              [mkCtor false []] [mkDtor false])).
  - simpl. auto.
  - reflexivity.
Defined.
